(** * log-analyzer: a shallow embedding of the classification and
      aggregation engine, and the properties of its specification.

    Sources embedded here:
    - [log_analyzer.py]: [match_line], [normalize_error], [analyze_logs],
      [print_summary];
    - [src/log_analyzer/patterns.py]: [DEFAULT_PATTERNS];
    - [src/log_analyzer/analyzer.py]: [Match], [analyze_lines], [summary];
    - [src/log_analyzer/cli.py]: [main] behind the parsing of its arguments.

    Python strings are sequences of Unicode code points.  A code point is an
    [N]; a [str] is a list of them.  What Python decides with its Unicode
    database (white space, decimal digits, alphanumerics, lower-casing,
    case-insensitive equality) is written out here for the ASCII range and
    left to a [UnicodeDB] beyond it, so every statement below holds for every
    such database and evaluates on ASCII text. *)

From Stdlib Require Import String Ascii NArith ZArith List Bool Arith Lia.
From Stdlib Require Import Sorting.Permutation Sorting.Sorted.
From Stdlib Require Import Numbers.DecimalString.
Import ListNotations.

Set Implicit Arguments.
Open Scope N_scope.
Open Scope list_scope.

(** ** Characters and strings *)

Definition char := N.
Definition str := list char.

(** A literal of the source, written as a Rocq string of ASCII characters. *)
Definition py (s : string) : str := map N_of_ascii (list_ascii_of_string s).

Definition str_eqb (a b : str) : bool :=
  if list_eq_dec N.eq_dec a b then true else false.

(** Python's character tables beyond ASCII.  [uni_lower] receives the text
    before and after the character, as [str.lower] is context sensitive
    there (final sigma) and may produce several code points. *)
Class UnicodeDB := {
  uni_isspace : char -> bool;
  uni_isdecimal : char -> bool;
  uni_isalnum : char -> bool;
  uni_lower : str -> char -> str -> str;
  uni_ieq : char -> char -> bool;
  uni_decimal_alnum : forall c, uni_isdecimal c = true -> uni_isalnum c = true;
  uni_space_not_alnum : forall c, uni_isspace c = true -> uni_isalnum c = false
}.

(** The database of a Python restricted to ASCII text. *)
Definition ascii_only : UnicodeDB :=
  {| uni_isspace := fun _ => false;
     uni_isdecimal := fun _ => false;
     uni_isalnum := fun _ => false;
     uni_lower := fun _ c _ => [c];
     uni_ieq := N.eqb;
     uni_decimal_alnum := fun _ H => H;
     uni_space_not_alnum := fun _ _ => eq_refl |}.

Definition in_range (lo hi c : char) : bool := (lo <=? c) && (c <=? hi).

Definition is_ascii (c : char) : bool := c <? 128.

Section Chars.
Context {U : UnicodeDB}.

(** [str.isspace] on one character, also the class [\s]:
    TAB..CR, FS..US and the space. *)
Definition isspace (c : char) : bool :=
  if is_ascii c then in_range 9 13 c || in_range 28 32 c else uni_isspace c.

(** The class [\d]. *)
Definition isdigit (c : char) : bool :=
  if is_ascii c then in_range 48 57 c else uni_isdecimal c.

(** The class [\w]: alphanumeric or the underscore. *)
Definition isword (c : char) : bool :=
  if is_ascii c
  then in_range 48 57 c || in_range 65 90 c || in_range 97 122 c || (c =? 95)
  else uni_isalnum c.

Definition ascii_lower (c : char) : char :=
  if in_range 65 90 c then c + 32 else c.

Fixpoint lower_from (before s : str) : str :=
  match s with
  | [] => []
  | c :: t =>
      (if is_ascii c then [ascii_lower c] else uni_lower before c t)
        ++ lower_from (before ++ [c]) t
  end.

(** [s.lower()] *)
Definition lower (s : str) : str := lower_from [] s.

(** Equality of two characters under [re.IGNORECASE]. *)
Definition ieq (a b : char) : bool :=
  if is_ascii a && is_ascii b then ascii_lower a =? ascii_lower b
  else uni_ieq a b.

End Chars.

(** [s.startswith(w)] and [w in s]. *)
Fixpoint startswith (w s : str) : bool :=
  match w, s with
  | [], _ => true
  | a :: w', b :: s' => (a =? b) && startswith w' s'
  | _ :: _, [] => false
  end.

Fixpoint str_in (w s : str) : bool :=
  startswith w s ||
  match s with
  | [] => false
  | _ :: t => str_in w t
  end.

Fixpoint dropwhile (p : char -> bool) (s : str) : str :=
  match s with
  | [] => []
  | c :: t => if p c then dropwhile p t else s
  end.

Fixpoint takewhile (p : char -> bool) (s : str) : str :=
  match s with
  | [] => []
  | c :: t => if p c then c :: takewhile p t else []
  end.

Definition lstrip_by (p : char -> bool) (s : str) : str := dropwhile p s.
Definition rstrip_by (p : char -> bool) (s : str) : str :=
  rev (dropwhile p (rev s)).

(** [s.rstrip("\n")] *)
Definition rstrip_nl (s : str) : str := rstrip_by (fun c => c =? 10) s.










(** ** Regular expressions

    The fragment of [re] the program's own patterns are written in.  A
    pattern compiled with [re.IGNORECASE] has its literals as [LitI]. *)

Inductive cls : Type :=
| CDigit                       (* \d *)
| CSpace                       (* \s *)
| CWord                        (* \w *)
| CRange (lo hi : char)        (* [lo-hi] *)
| CUnion (a b : cls).

Inductive regex : Type :=
| Lit (c : char)
| LitI (c : char)
| InSet (p : cls)               (* one character of a class *)
| Many1 (p : cls)              (* p+, greedy *)
| Bound                        (* \b *)
| Eps                          (* the empty pattern *)
| Cat (a b : regex)
| Alt (a b : regex).

Section Regex.
Context {U : UnicodeDB}.

Fixpoint in_cls (p : cls) (c : char) : bool :=
  match p with
  | CDigit => isdigit c
  | CSpace => isspace c
  | CWord => isword c
  | CRange lo hi => in_range lo hi c
  | CUnion a b => in_cls a c || in_cls b c
  end.

Definition prev_word (prev : option char) : bool :=
  match prev with Some c => isword c | None => false end.

Definition head_word (s : str) : bool :=
  match s with c :: _ => isword c | [] => false end.

(** [\b]: exactly one of the two neighbours is a word character. *)
Definition at_boundary (prev : option char) (s : str) : bool :=
  xorb (prev_word prev) (head_word s).

(** The continuation receives the character before the position reached,
    the rest of the text and the number of characters consumed. *)
Definition kont := option char -> str -> nat -> option nat.

(** Zero or more characters of [p], the longest run first. *)
Fixpoint many (p : cls) (prev : option char) (s : str) (n : nat) (k : kont)
  : option nat :=
  match s with
  | c :: t =>
      if in_cls p c then
        match many p (Some c) t (S n) k with
        | Some r => Some r
        | None => k prev s n
        end
      else k prev s n
  | [] => k prev s n
  end.

(** The backtracking matcher: alternatives left to right, repetition
    greedy; the first success is the match. *)
Fixpoint rmatch (r : regex) (prev : option char) (s : str) (n : nat) (k : kont)
  : option nat :=
  match r with
  | Lit c =>
      match s with
      | x :: t => if x =? c then k (Some x) t (S n) else None
      | [] => None
      end
  | LitI c =>
      match s with
      | x :: t => if ieq c x then k (Some x) t (S n) else None
      | [] => None
      end
  | InSet p =>
      match s with
      | x :: t => if in_cls p x then k (Some x) t (S n) else None
      | [] => None
      end
  | Many1 p =>
      match s with
      | x :: t => if in_cls p x then many p (Some x) t (S n) k else None
      | [] => None
      end
  | Bound => if at_boundary prev s then k prev s n else None
  | Eps => k prev s n
  | Cat a b => rmatch a prev s n (fun prev' s' n' => rmatch b prev' s' n' k)
  | Alt a b =>
      match rmatch a prev s n k with
      | Some r => Some r
      | None => rmatch b prev s n k
      end
  end.

(** The match of [r] that starts at the current position, as its length;
    [must_advance] refuses the empty match. *)
Definition match_here (r : regex) (must_advance : bool) (prev : option char)
  (s : str) : option nat :=
  rmatch r prev s 0%nat
    (fun _ _ n => if must_advance && Nat.eqb n 0 then None else Some n).

(** [rx.search(s)] as a truth value. *)
Fixpoint search_from (r : regex) (prev : option char) (s : str) : bool :=
  match match_here r false prev s with
  | Some _ => true
  | None =>
      match s with
      | [] => false
      | c :: t => search_from r (Some c) t
      end
  end.

Definition re_search (r : regex) (s : str) : bool := search_from r None s.

(** [re.sub(r, repl, s)] for a replacement without group references.
    [skip] counts the characters of the current match still to pass.  An
    empty match is replaced, and the search resumes at the same position
    for a match that advances. *)
Fixpoint sub_walk (r : regex) (repl : str) (skip : nat) (prev : option char)
  (s : str) {struct s} : str :=
  match s with
  | [] =>
      match skip with
      | O => match match_here r false prev [] with
             | Some _ => repl
             | None => []
             end
      | S _ => []
      end
  | c :: t =>
      match skip with
      | S k => sub_walk r repl k (Some c) t
      | O =>
          match match_here r false prev s with
          | None => c :: sub_walk r repl 0 (Some c) t
          | Some (S k) => repl ++ sub_walk r repl k (Some c) t
          | Some O =>
              repl ++
              match match_here r true prev s with
              | Some (S k) => repl ++ sub_walk r repl k (Some c) t
              | _ => c :: sub_walk r repl 0 (Some c) t
              end
          end
      end
  end.

Definition re_sub (r : regex) (repl s : str) : str := sub_walk r repl 0 None s.

(** [s.strip()] *)
Definition strip (s : str) : str := rstrip_by isspace (lstrip_by isspace s).

End Regex.

(** A word of the pattern text under [re.IGNORECASE], and [(w1|w2|...)]. *)
Definition word_rx (w : str) : regex :=
  fold_right (fun c r => Cat (LitI c) r) Eps w.

Fixpoint alt_rx (ws : list str) : regex :=
  match ws with
  | [] => Eps
  | [w] => word_rx w
  | w :: rest => Alt (word_rx w) (alt_rx rest)
  end.

(** ** log_analyzer.py: normalize_error *)

(** [r"0x[0-9a-fA-F]+"] *)
Definition hexdigits : cls :=
  CUnion (CRange 48 57) (CUnion (CRange 97 102) (CRange 65 70)).
Definition hex_rx : regex := Cat (Lit 48) (Cat (Lit 120) (Many1 hexdigits)).

(** [r"\b\d+\b"] *)
Definition num_rx : regex := Cat Bound (Cat (Many1 CDigit) Bound).

(** [r"\s+"] *)
Definition ws_rx : regex := Many1 CSpace.

Definition trigger_words : list str :=
  [py "error"; py "failed"; py "exception"; py "warning"].

Section Normalizer.
Context {U : UnicodeDB}.

Definition normalize_error (line : str) : option str :=
  if negb (existsb (fun word => str_in word (lower line)) trigger_words)
  then None
  else
    let normalized := re_sub hex_rx (py "<HEX>") line in
    let normalized := re_sub num_rx (py "<NUM>") normalized in
    let normalized := strip (re_sub ws_rx (py " ") normalized) in
    Some normalized.

End Normalizer.


(** ** Compiled patterns

    What the program does with a compiled pattern is [rx.search(line)]; a
    [Pattern] is that method.  [compile] is [re.compile] on a pattern that is
    already parsed. *)

Record Pattern : Type := { search : str -> bool }.

Definition compile {U : UnicodeDB} (r : regex) : Pattern :=
  {| search := re_search r |}.

(** ** Dictionaries and counters

    A Python [dict] keeps its keys in the order of their first insertion,
    and [Counter.most_common] depends on it: an association list with an
    update in place. *)

Definition dict := list (str * nat).

Fixpoint dict_get (d : dict) (k : str) (default : nat) : nat :=
  match d with
  | [] => default
  | (k', v) :: r => if str_eqb k' k then v else dict_get r k default
  end.

Fixpoint dict_set (d : dict) (k : str) (v : nat) : dict :=
  match d with
  | [] => [(k, v)]
  | (k', v') :: r =>
      if str_eqb k' k then (k', v) :: r else (k', v') :: dict_set r k v
  end.

(** [counter[k] += 1], also [out[k] = out.get(k, 0) + 1] *)
Definition dict_incr (d : dict) (k : str) : dict :=
  dict_set d k (dict_get d k 0 + 1)%nat.

(** [sorted]: Python's sort is stable, and an element moves in front of
    another only when its key is strictly smaller ([before x y]). *)
Section Sorted.
Variable A : Type.
Variable before : A -> A -> bool.

Fixpoint insert_sorted (x : A) (l : list A) : list A :=
  match l with
  | [] => [x]
  | y :: r => if before y x then y :: insert_sorted x r else x :: y :: r
  end.

Definition sorted (l : list A) : list A := fold_right insert_sorted [] l.

End Sorted.

(** [sorted(items, key=itemgetter(1), reverse=True)] *)
Definition by_count_desc (a b : str * nat) : bool := (snd b <? snd a)%nat.

(** [Counter.most_common(n)] for an integer [n], as the library documents
    it: the [n] most common elements, from the most common to the least,
    elements of equal count in the order first encountered; nothing for
    [n <= 0]. *)
Definition most_common (c : dict) (n : Z) : list (str * nat) :=
  if (n <=? 0)%Z then [] else firstn (Z.to_nat n) (sorted by_count_desc c).

(** Comparison of two strings by code points, [a < b]. *)
Fixpoint str_ltb (a b : str) : bool :=
  match a, b with
  | _, [] => false
  | [], _ :: _ => true
  | x :: a', y :: b' => (x <? y) || ((x =? y) && str_ltb a' b')
  end.

(** ** log_analyzer.py *)

(** The file and the terminal.  [openable] says whether the path can be
    opened for reading (it cannot when it is a directory, or may not be
    read); [unread] holds the lines the file iterator still has to yield,
    [consumed] the number already yielded, [stdout] what [print] has
    received. *)
Record World : Type := {
  openable : bool;
  unread : list str;
  consumed : nat;
  stdout : list str
}.

Inductive exn : Type :=
| re_error (pattern : str)    (* raised by [re.compile] *)
| os_error.                   (* [OSError], raised by [open] *)

Inductive outcome (A : Type) : Type :=
| Returned (a : A) (w : World)
| Raised (e : exn) (w : World).
Arguments Returned {A} a w.
Arguments Raised {A} e w.

Definition M (A : Type) : Type := World -> outcome A.

Definition ret {A} (a : A) : M A := fun w => Returned a w.
Definition bind {A B} (m : M A) (f : A -> M B) : M B :=
  fun w => match m w with
           | Returned a w' => f a w'
           | Raised e w' => Raised e w'
           end.
Definition raise {A} (e : exn) : M A := fun w => Raised e w.

Notation "x <- m ;; f" := (bind m (fun x => f))
  (at level 61, m at next level, right associativity).
Notation "m ;;; f" := (bind m (fun _ => f))
  (at level 61, right associativity).

Section LogAnalyzer.
Context {U : UnicodeDB}.

(** Truth value of an optional string: [None] and [""] are false. *)
Definition truthy (o : option str) : bool :=
  match o with
  | Some (_ :: _) => true
  | _ => false
  end.

Definition match_line (line : str) (keyword : option str)
  (regex : option Pattern) (severity : option str) : bool :=
  if truthy keyword &&
     negb (str_in (lower (match keyword with Some k => k | None => [] end))
                  (lower line))
  then false
  else if truthy severity &&
     negb (str_in (lower (match severity with Some k => k | None => [] end))
                  (lower line))
  then false
  else if match regex with
          | Some rx => negb (search rx line)
          | None => false
          end
  then false
  else true.

Definition print (s : str) : M unit :=
  fun w => Returned tt {| openable := openable w; unread := unread w;
                          consumed := consumed w; stdout := stdout w ++ [s] |}.

(** [path.open("r", ...)]: raises [OSError] where the path cannot be
    opened, and touches nothing else. *)
Definition open_file : M unit :=
  fun w => if openable w then Returned tt w else Raised os_error w.

(** One step of the iteration in [read_log_lines] over the open file: the
    next line without its trailing newlines, or [None] at the end of the
    file. *)
Definition read_log_lines_next : M (option str) :=
  fun w => match unread w with
           | [] => Returned None w
           | l :: rest =>
               Returned (Some (rstrip_nl l))
                 {| openable := openable w; unread := rest;
                    consumed := S (consumed w); stdout := stdout w |}
           end.

(** [str(n)] of an f-string. *)
Definition fmt (n : nat) : str := py (NilEmpty.string_of_uint (Nat.to_uint n)).

Definition print_summary (counter : dict) (top_n : Z) : M unit :=
  print (10 :: py "--- Top recurring issues ---") ;;;
  match counter with
  | [] => print (py "No recurring errors detected.")
  | _ =>
      fold_left
        (fun (acc : M unit) (e : str * nat) =>
           acc ;;; print (py "[" ++ fmt (snd e) ++ py "x] " ++ fst e))
        (most_common counter top_n) (ret tt)
  end.

(** The local variables of [analyze_logs]. *)
Record Locals : Type := {
  total_lines : nat;
  matched_lines : nat;
  error_counter : dict
}.

(** The body of the loop for one line. *)
Definition loop_body (keyword : option str) (regex : option Pattern)
  (severity : option str) (line : str) (st : Locals) : M Locals :=
  let total := S (total_lines st) in
  if match_line line keyword regex severity then
    print line ;;;
    match normalize_error line with
    | Some ((_ :: _) as normalized) =>
        ret {| total_lines := total; matched_lines := S (matched_lines st);
               error_counter := dict_incr (error_counter st) normalized |}
    | _ =>
        ret {| total_lines := total; matched_lines := S (matched_lines st);
               error_counter := error_counter st |}
    end
  else
    ret {| total_lines := total; matched_lines := matched_lines st;
           error_counter := error_counter st |}.

(** The iteration of [for line in read_log_lines(file_path): ...] once the
    file is open; [fuel] bounds the number of iterations and is the length of
    the file where the loop is run. *)
Fixpoint for_lines (fuel : nat) (body : str -> Locals -> M Locals)
  (st : Locals) : M Locals :=
  match fuel with
  | O => ret st
  | S f =>
      o <- read_log_lines_next ;;
      match o with
      | None => ret st
      | Some line => st' <- body line st ;; for_lines f body st'
      end
  end.

Section AnalyzeLogs.
(** [re.compile(pattern, re.IGNORECASE)]: the compiled pattern, or [None]
    where Python raises [re.error] on a pattern that is not well formed. *)
Variable re_compile : str -> option Pattern.

(** The source returns nothing; the local variables are returned here so
    that statements can speak of the counters at the end of the run.  The
    generator [read_log_lines] opens the file when the loop asks for its
    first line, after the opening line has been printed. *)
Definition analyze_logs (keyword regex_pattern severity : option str)
  (show_summary : bool) (top_n : Z) : M Locals :=
  regex <- (if truthy regex_pattern then
              match regex_pattern with
              | Some p =>
                  match re_compile p with
                  | Some rx => ret (Some rx)
                  | None => raise (re_error p)
                  end
              | None => ret None
              end
            else ret None) ;;
  let st := {| total_lines := 0; matched_lines := 0; error_counter := [] |} in
  print (py "--- Matching log entries ---") ;;;
  st <- (open_file ;;;
         (fun w => for_lines (length (unread w))
                     (loop_body keyword regex severity) st w)) ;;
  print (10 :: py "--- Analysis complete ---") ;;;
  print (py "Total lines processed: " ++ fmt (total_lines st)) ;;;
  print (py "Matched lines: " ++ fmt (matched_lines st)) ;;;
  (if show_summary then print_summary (error_counter st) top_n else ret tt) ;;;
  ret st.

End AnalyzeLogs.
End LogAnalyzer.

(** ** src/log_analyzer/patterns.py *)

Definition DEFAULT_PATTERNS {U : UnicodeDB} : list (str * Pattern) :=
  [ (py "ERROR",
     compile (Cat Bound (Cat (alt_rx [py "error"; py "failed"; py "failure";
                                      py "critical"; py "panic"]) Bound)));
    (py "WARNING",
     compile (Cat Bound (Cat (alt_rx [py "warn"; py "warning"; py "deprecated";
                                      py "retry"]) Bound)));
    (py "AUTH_FAIL",
     compile (Cat Bound (Cat (alt_rx [py "failed password";
                                      py "authentication failure";
                                      py "invalid user"]) Bound))) ].

(** ** src/log_analyzer/analyzer.py *)

Record Match : Type := {
  line_no : nat;
  tag : str;
  line : str
}.

(** The inner loop: the patterns of the set, in their order, on one line. *)
Definition scan_line (i : nat) (l : str) (patterns : list (str * Pattern))
  (results : list Match) : list Match :=
  fold_left
    (fun results (p : str * Pattern) =>
       if search (snd p) l
       then results ++ [{| line_no := i; tag := fst p; line := rstrip_nl l |}]
       else results)
    patterns results.

(** The outer loop over [enumerate(lines, start=i)]. *)
Fixpoint analyze_from (i : nat) (lines : list str)
  (patterns : list (str * Pattern)) (results : list Match) : list Match :=
  match lines with
  | [] => results
  | l :: rest => analyze_from (S i) rest patterns (scan_line i l patterns results)
  end.

Definition analyze_lines (lines : list str) (patterns : list (str * Pattern))
  : list Match :=
  analyze_from 1 lines patterns [].

Definition summary (matches : list Match) : dict :=
  fold_left (fun out m => dict_set out (tag m) (dict_get out (tag m) 0 + 1)%nat)
    matches [].

(** ** src/log_analyzer/cli.py *)

(** The sort key [(-x[1], x[0])], compared as a tuple. *)
Definition by_count_then_key (a b : str * nat) : bool :=
  (snd b <? snd a)%nat || ((snd a =? snd b)%nat && str_ltb (fst a) (fst b)).

(** [sorted(s.items(), key=lambda x: (-x[1], x[0]))] *)
Definition summary_order (s : dict) : list (str * nat) :=
  sorted by_count_then_key s.

(** ** The normalizer in the words of its specification

    Masking replaces tokens: a scanner looks for a token at each position,
    writes the placeholder for it and goes on behind it, and copies the
    character where no token starts.  A token is given by a function from
    the text at a position, and whether a word character stands before it,
    to the token and the rest of the text. *)

Definition tokenizer := bool -> str -> option (str * str).

Section Scanner.
Context {U : UnicodeDB}.
Variable tok : tokenizer.
Variable repl : str.

Fixpoint replace_from (fuel : nat) (pw : bool) (s : str) : str :=
  match fuel, s with
  | S f, c :: t =>
      match tok pw s with
      | Some (w, rest) => repl ++ replace_from f (isword (last w 0)) rest
      | None => c :: replace_from f (isword c) t
      end
  | _, _ => []
  end.

Definition replace_tokens (pw : bool) (s : str) : str :=
  replace_from (length s) pw s.

(** No token starts at any position of the text. *)
Fixpoint token_free (pw : bool) (s : str) : bool :=
  match tok pw s with
  | Some _ => false
  | None =>
      match s with
      | [] => true
      | c :: t => token_free (isword c) t
      end
  end.

End Scanner.

Section SpecNormalizer.
Context {U : UnicodeDB}.

Definition is_hexdigit (c : char) : bool :=
  in_range 48 57 c || (in_range 97 102 c || in_range 65 70 c).

(** [0x] followed by one or more hexadecimal digits. *)
Definition hex_token : tokenizer := fun _ s =>
  match s with
  | a :: b :: h :: t =>
      if (a =? 48) && (b =? 120) && is_hexdigit h
      then Some (a :: b :: h :: takewhile is_hexdigit t, dropwhile is_hexdigit t)
      else None
  | _ => None
  end.

(** A run of decimal digits with no word character on either side. *)
Definition num_token : tokenizer := fun pw s =>
  match s with
  | d :: t =>
      if negb pw && isdigit d && negb (head_word (dropwhile isdigit t))
      then Some (d :: takewhile isdigit t, dropwhile isdigit t)
      else None
  | [] => None
  end.

(** A run of white space. *)
Definition ws_token : tokenizer := fun _ s =>
  match s with
  | c :: t =>
      if isspace c
      then Some (c :: takewhile isspace t, dropwhile isspace t)
      else None
  | [] => None
  end.

Definition mask_hex (s : str) : str := replace_tokens hex_token (py "<HEX>") false s.
Definition mask_num (s : str) : str := replace_tokens num_token (py "<NUM>") false s.
Definition collapse_ws (s : str) : str := replace_tokens ws_token (py " ") false s.
Definition trim (s : str) : str :=
  rev (dropwhile isspace (rev (dropwhile isspace s))).

(** [w] occurs in [s] as a substring. *)
Definition occurs_in (w s : str) : Prop := exists pre suf, s = pre ++ w ++ suf.

(** The line has a trigger word, letter case apart. *)
Definition triggered (line : str) : Prop :=
  exists w, In w trigger_words /\ occurs_in w (lower line).

(** The key the specification describes for a triggered line. *)
Definition masked_key (line : str) : str :=
  trim (collapse_ws (mask_num (mask_hex line))).

Definition head_space (s : str) : bool :=
  match s with c :: _ => isspace c | [] => false end.

(** Every white-space character is a single space in_range two others. *)
Fixpoint single_spaced (s : str) : bool :=
  match s with
  | [] => true
  | c :: t =>
      (if isspace c then (c =? 32) && negb (head_space t) else true)
      && single_spaced t
  end.

End SpecNormalizer.

(** ** Notions the statements below are written with *)

(** The length of the token found, as the matcher reports a match. *)
Definition token_length (o : option (str * str)) : option nat :=
  option_map (fun p => length (fst p)) o.

(** The character before the position reached after passing [w]. *)
Definition last_seen (prev : option char) (w : str) : option char :=
  match w with
  | [] => prev
  | _ :: _ => Some (last w 0)
  end.

Definition head_digit {U : UnicodeDB} (s : str) : bool :=
  match s with c :: _ => isdigit c | [] => false end.

(** [classify(line_no, line, pattern_set)] of the specification: one Match
    for each pattern of the set that finds an occurrence, in the order of
    the set. *)
Definition classify (i : nat) (l : str) (patterns : list (str * Pattern))
  : list Match :=
  map (fun p => {| line_no := i; tag := fst p; line := rstrip_nl l |})
      (filter (fun p => search (snd p) l) patterns).

Fixpoint classify_all (i : nat) (lines : list str)
  (patterns : list (str * Pattern)) : list Match :=
  match lines with
  | [] => []
  | l :: rest => classify i l patterns ++ classify_all (S i) rest patterns
  end.


(** The number of patterns of the set that find an occurrence in a line. *)
Definition hits (patterns : list (str * Pattern)) (l : str) : nat :=
  length (filter (fun p => search (snd p) l) patterns).

(** [enumerate(lines, start=i)] *)
Definition enumerate (i : nat) (lines : list str) : list (nat * str) :=
  combine (seq i (length lines)) lines.

Definition non_decreasing (a b : Match) : Prop := (line_no a <= line_no b)%nat.
Definition strictly_increasing (a b : Match) : Prop :=
  (line_no a < line_no b)%nat.

(** The sum of the counts of a summary. *)
Definition total_count (d : dict) : nat := list_sum (map snd d).

(** Descending count. *)
Definition count_order (a b : str * nat) : Prop := (snd b <= snd a)%nat.

(** Descending count, and ascending key among equal counts. *)
Definition rank_order (a b : str * nat) : Prop :=
  (snd b < snd a)%nat \/ (snd a = snd b /\ str_ltb (fst b) (fst a) = false).

Definition has_count (v : nat) (e : str * nat) : bool := Nat.eqb (snd e) v.

(** [b] does not have to stand before [a]. *)
Definition in_order (A : Type) (before : A -> A -> bool) (a b : A) : Prop :=
  before b a = false.

(** A file of two lines, a [re.compile] that refuses an unbalanced
    parenthesis, and a log of two lines for the package. *)
Definition sample_world : World :=
  {| openable := true; unread := [py "warning b"; py "error a"];
     consumed := 0; stdout := [] |}.


Definition sample_compile (p : str) : option Pattern :=
  if str_eqb p (py "(") then None else Some {| search := fun _ => true |}.

(** The log of the specification's scenario. *)
Definition scenario : list str :=
  [py "INFO start"; py "ERROR disk failed 404"; py "WARNING retry 404";
   py "ERROR disk failed 500"].

Definition sample_lines : list str :=
  [py "INFO start"; py "Failed password for invalid user root"].

(** ** src/log_analyzer/cli.py: main *)








(** ** Further notions *)

(** A computation that returns [a], prints [out] and leaves the file
    alone. *)
Definition emits (A : Type) (out : list str) (a : A) (m : M A) : Prop :=
  forall w, m w = Returned a {| openable := openable w; unread := unread w;
                                consumed := consumed w;
                                stdout := stdout w ++ out |}.

(** The pattern the filter of [analyze_logs] works with. *)
Definition regex_of (re_compile : str -> option Pattern)
  (regex_pattern : option str) : option Pattern :=
  match regex_pattern with
  | Some ((_ :: _) as p) => re_compile p
  | _ => None
  end.

(** The lines of a file that pass the filter, as the loop sees them. *)
Definition accepted {U : UnicodeDB} (keyword : option str)
  (regex : option Pattern) (severity : option str) (lines : list str)
  : list str :=
  filter (fun l => match_line l keyword regex severity) (map rstrip_nl lines).

(** What the loop does to the counter for a line that passed the filter. *)
Definition count_key {U : UnicodeDB} (counter : dict) (l : str) : dict :=
  match normalize_error l with
  | Some ((_ :: _) as normalized) => dict_incr counter normalized
  | _ => counter
  end.

Definition top_header : str := 10 :: py "--- Top recurring issues ---".
Definition no_recurring : str := py "No recurring errors detected.".
Definition entry_text (e : str * nat) : str :=
  py "[" ++ fmt (snd e) ++ py "x] " ++ fst e.

(** The lines among [ls] whose key is [k]. *)
Definition with_key {U : UnicodeDB} (k : str) (ls : list str) : list str :=
  filter (fun l => match normalize_error l with
                   | Some k' => str_eqb k' k
                   | None => false
                   end) ls.

(** The line has a key that the loop counts. *)
Definition keyed {U : UnicodeDB} (l : str) : bool :=
  match normalize_error l with
  | Some (_ :: _) => true
  | _ => false
  end.

(** The end of the run on [sample_world] with a summary of five. *)
Definition sample_end : Locals * World :=
  Eval vm_compute in
    match analyze_logs (U := ascii_only) sample_compile None None None true 5
            sample_world with
    | Returned st w => (st, w)
    | Raised _ w => ({| total_lines := 0; matched_lines := 0;
                        error_counter := [] |}, w)
    end.

(** Whether a word character stands before the position behind [a]. *)
Definition word_before {U : UnicodeDB} (pw : bool) (a : str) : bool :=
  match a with
  | [] => pw
  | _ :: _ => isword (last a 0)
  end.

(** A tokenizer finds in [a ++ b], at the positions of [a], what it finds
    in [a] alone. *)
Definition local_at (tok : tokenizer) (a b : str) : Prop :=
  forall a1 a2 q, a = a1 ++ a2 -> a2 <> [] ->
    tok q (a2 ++ b)
    = match tok q a2 with
      | Some (w, r) => Some (w, r ++ b)
      | None => None
      end.

(** The text has a character that is not white space. *)
Definition nonspace {U : UnicodeDB} (s : str) : bool :=
  existsb (fun c => negb (isspace c)) s.

(** A Match moved [n] lines down. *)
Definition shift (n : nat) (m : Match) : Match :=
  {| line_no := (n + line_no m)%nat; tag := tag m; line := line m |}.

(** The patterns whose answer does not depend on the case of ASCII
    letters: ASCII literals under [re.IGNORECASE], word boundaries, no
    exact literal and no character class. *)
Fixpoint caseless (r : regex) : bool :=
  match r with
  | LitI c => is_ascii c
  | Bound | Eps => true
  | Cat a b | Alt a b => caseless a && caseless b
  | _ => false
  end.

(** * Properties *)

(** * Characters *)

Ltac cmp_cases :=
  repeat match goal with
  | |- context [N.leb ?a ?b] => destruct (N.leb_spec a b)
  | |- context [N.ltb ?a ?b] => destruct (N.ltb_spec a b)
  | |- context [N.eqb ?a ?b] => destruct (N.eqb_spec a b)
  | H : context [N.leb ?a ?b] |- _ => destruct (N.leb_spec a b)
  | H : context [N.ltb ?a ?b] |- _ => destruct (N.ltb_spec a b)
  | H : context [N.eqb ?a ?b] |- _ => destruct (N.eqb_spec a b)
  end.

Section CharFacts.
Context {U : UnicodeDB}.

Lemma digit_word c : isdigit c = true -> isword c = true.
Proof.
  unfold isdigit, isword. destruct (is_ascii c).
  - intros ->. reflexivity.
  - apply uni_decimal_alnum.
Qed.

Lemma space_not_word c : isspace c = true -> isword c = false.
Proof.
  unfold isspace, isword. destruct (is_ascii c) eqn:E.
  - unfold in_range. cmp_cases; simpl; try congruence; try lia.
  - apply uni_space_not_alnum.
Qed.

Lemma space_not_digit c : isspace c = true -> isdigit c = false.
Proof.
  intros H. destruct (isdigit c) eqn:D; [|reflexivity].
  apply digit_word in D. apply space_not_word in H. congruence.
Qed.

End CharFacts.

(** * The matcher on the three patterns of the normalizer *)

Section Matcher.
Context {U : UnicodeDB}.

Lemma many_accept p prev s n :
  many p prev s n (fun _ _ m => Some m)
  = Some (n + length (takewhile (in_cls p) s))%nat.
Proof.
  revert prev n. induction s as [|c t IH]; intros prev n; simpl.
  - f_equal. lia.
  - destruct (in_cls p c); simpl.
    + rewrite IH. f_equal. lia.
    + f_equal. lia.
Qed.

Lemma many_then_bound x t n :
  isword x = true ->
  many CDigit (Some x) t n
    (fun prev' s' n' => if at_boundary prev' s' then Some n' else None)
  = if negb (head_word (dropwhile isdigit t))
    then Some (n + length (takewhile isdigit t))%nat else None.
Proof.
  revert x n. induction t as [|c t IH]; intros x n Hx; simpl.
  - unfold at_boundary. simpl. rewrite Hx. simpl. f_equal. lia.
  - destruct (isdigit c) eqn:D.
    + rewrite IH by (apply digit_word; exact D).
      destruct (negb (head_word (dropwhile isdigit t))).
      * simpl. f_equal. lia.
      * unfold at_boundary. simpl. rewrite Hx, (digit_word _ D). reflexivity.
    + unfold at_boundary. simpl. rewrite Hx. simpl.
      destruct (isword c); simpl; [reflexivity|f_equal; lia].
Qed.

Lemma hex_match prev s :
  match_here hex_rx false prev s = token_length (hex_token (prev_word prev) s).
Proof.
  unfold match_here, hex_rx, hex_token. simpl.
  destruct s as [|a [|b [|h t]]]; simpl; try reflexivity.
  - destruct (a =? 48); reflexivity.
  - destruct (a =? 48); simpl; [|reflexivity]. destruct (b =? 120); reflexivity.
  - destruct (a =? 48); simpl; [|reflexivity].
    destruct (b =? 120); simpl; [|reflexivity].
    change (in_range 48 57 h || (in_range 97 102 h || in_range 65 70 h))
      with (is_hexdigit h).
    destruct (is_hexdigit h); simpl; [|reflexivity].
    rewrite (many_accept hexdigits (Some h) t 3). reflexivity.
Qed.

Lemma num_match prev s :
  match_here num_rx false prev s = token_length (num_token (prev_word prev) s).
Proof.
  unfold match_here, num_rx, num_token. simpl.
  destruct s as [|d t]; simpl.
  - unfold at_boundary. simpl. destruct (prev_word prev); reflexivity.
  - destruct (isdigit d) eqn:D.
    + unfold at_boundary at 1. simpl. rewrite (digit_word _ D).
      destruct (prev_word prev); simpl; [reflexivity|].
      rewrite (many_then_bound d t 1 (digit_word _ D)).
      destruct (negb (head_word (dropwhile isdigit t))); reflexivity.
    + rewrite andb_false_r. simpl.
      destruct (at_boundary prev (d :: t)); reflexivity.
Qed.

Lemma ws_match prev s :
  match_here ws_rx false prev s = token_length (ws_token (prev_word prev) s).
Proof.
  unfold match_here, ws_rx, ws_token. simpl.
  destruct s as [|c t]; simpl; [reflexivity|].
  destruct (isspace c); simpl; [|reflexivity].
  rewrite (many_accept CSpace (Some c) t 1). reflexivity.
Qed.

End Matcher.

(** * A scanner against [re.sub] *)

Section Refine.
Context {U : UnicodeDB}.
Variable rx : regex.
Variable tok : tokenizer.
Variable repl : str.
Hypothesis tok_split : forall pw s w rest,
  tok pw s = Some (w, rest) -> w <> [] /\ s = w ++ rest.
Hypothesis tok_match : forall prev s,
  match_here rx false prev s = token_length (tok (prev_word prev) s).

Lemma tok_nil pw : tok pw [] = None.
Proof.
  destruct (tok pw []) as [[w rest]|] eqn:E; [|reflexivity].
  apply tok_split in E. destruct E as [Hw E].
  destruct w; [congruence|discriminate].
Qed.

Lemma tok_shorter pw s w rest :
  tok pw s = Some (w, rest) -> (length rest < length s)%nat.
Proof.
  intros E. apply tok_split in E. destruct E as [Hw ->].
  rewrite length_app. destruct w; [congruence|simpl; lia].
Qed.

Lemma replace_from_fuel f1 : forall f2 pw s,
  (length s <= f1)%nat -> (length s <= f2)%nat ->
  replace_from tok repl f1 pw s = replace_from tok repl f2 pw s.
Proof.
  induction f1 as [|f1 IH]; intros f2 pw s H1 H2.
  - destruct s; [|simpl in H1; lia]. destruct f2; reflexivity.
  - destruct s as [|c t]; [destruct f2; reflexivity|].
    destruct f2 as [|f2]; [simpl in H2; lia|]. simpl in H1, H2. simpl.
    destruct (tok pw (c :: t)) as [[w rest]|] eqn:E.
    + apply tok_shorter in E. simpl in E. f_equal. apply IH; lia.
    + f_equal. apply IH; lia.
Qed.

Lemma replace_tokens_nil pw : replace_tokens tok repl pw [] = [].
Proof. reflexivity. Qed.

Lemma replace_tokens_cons pw c t :
  replace_tokens tok repl pw (c :: t)
  = match tok pw (c :: t) with
    | Some (w, rest) => repl ++ replace_tokens tok repl (isword (last w 0)) rest
    | None => c :: replace_tokens tok repl (isword c) t
    end.
Proof.
  unfold replace_tokens. simpl.
  destruct (tok pw (c :: t)) as [[w rest]|] eqn:E.
  - apply tok_shorter in E. simpl in E. f_equal.
    apply replace_from_fuel; lia.
  - reflexivity.
Qed.

Lemma sub_walk_skip w : forall prev rest,
  sub_walk rx repl (length w) prev (w ++ rest)
  = sub_walk rx repl 0 (last_seen prev w) rest.
Proof.
  induction w as [|c w IH]; intros prev rest.
  - reflexivity.
  - simpl. rewrite IH. destruct w; reflexivity.
Qed.

Lemma sub_walk_replace n : forall s prev, (length s <= n)%nat ->
  sub_walk rx repl 0 prev s = replace_tokens tok repl (prev_word prev) s.
Proof.
  induction n as [|n IH]; intros s prev Hn.
  - destruct s; [|simpl in Hn; lia]. simpl.
    rewrite tok_match, tok_nil. reflexivity.
  - destruct s as [|c t].
    + simpl. rewrite tok_match, tok_nil. reflexivity.
    + rewrite replace_tokens_cons. simpl sub_walk. rewrite tok_match.
      destruct (tok (prev_word prev) (c :: t)) as [[w rest]|] eqn:E; simpl.
      * pose proof E as E2. apply tok_split in E2. destruct E2 as [Hw Hs].
        destruct w as [|c' w']; [congruence|]. simpl in Hs.
        injection Hs as <- ->. simpl length.
        cbv iota. rewrite sub_walk_skip. f_equal.
        rewrite IH by (simpl in Hn; rewrite length_app in Hn; lia).
        f_equal. destruct w'; reflexivity.
      * f_equal. apply IH. simpl in Hn. lia.
Qed.

Lemma re_sub_replace s : re_sub rx repl s = replace_tokens tok repl false s.
Proof. apply (sub_walk_replace (n := length s)). lia. Qed.

End Refine.

(** * The three tokenizers *)

Section Tokens.
Context {U : UnicodeDB}.

Lemma takewhile_dropwhile p s : takewhile p s ++ dropwhile p s = s.
Proof.
  induction s as [|c t IH]; simpl; [reflexivity|].
  destruct (p c); simpl; [f_equal; exact IH|reflexivity].
Qed.

Lemma hex_token_split pw s w rest :
  hex_token pw s = Some (w, rest) -> w <> [] /\ s = w ++ rest.
Proof.
  unfold hex_token. destruct s as [|a [|b [|h t]]]; try discriminate.
  destruct ((a =? 48) && (b =? 120) && is_hexdigit h); [|discriminate].
  intros E. injection E as <- <-. split; [discriminate|].
  simpl. rewrite takewhile_dropwhile. reflexivity.
Qed.

Lemma num_token_split pw s w rest :
  num_token pw s = Some (w, rest) -> w <> [] /\ s = w ++ rest.
Proof.
  unfold num_token. destruct s as [|d t]; [discriminate|].
  destruct (negb pw && isdigit d && negb (head_word (dropwhile isdigit t)));
    [|discriminate].
  intros E. injection E as <- <-. split; [discriminate|].
  simpl. rewrite takewhile_dropwhile. reflexivity.
Qed.

Lemma ws_token_split pw s w rest :
  ws_token pw s = Some (w, rest) -> w <> [] /\ s = w ++ rest.
Proof.
  unfold ws_token. destruct s as [|c t]; [discriminate|].
  destruct (isspace c); [|discriminate].
  intros E. injection E as <- <-. split; [discriminate|].
  simpl. rewrite takewhile_dropwhile. reflexivity.
Qed.

Lemma re_sub_hex s : re_sub hex_rx (py "<HEX>") s = mask_hex s.
Proof. apply re_sub_replace; [apply hex_token_split|apply hex_match]. Qed.

Lemma re_sub_num s : re_sub num_rx (py "<NUM>") s = mask_num s.
Proof. apply re_sub_replace; [apply num_token_split|apply num_match]. Qed.

Lemma re_sub_ws s : re_sub ws_rx (py " ") s = collapse_ws s.
Proof. apply re_sub_replace; [apply ws_token_split|apply ws_match]. Qed.

End Tokens.

(** * What a scanner leaves behind *)

Section ScannerFacts.
Context {U : UnicodeDB}.
Variable tok : tokenizer.
Variable repl : str.
Hypothesis tok_split : forall pw s w rest,
  tok pw s = Some (w, rest) -> w <> [] /\ s = w ++ rest.

Lemma token_free_cons pw c t :
  token_free tok pw (c :: t) = true ->
  tok pw (c :: t) = None /\ token_free tok (isword c) t = true.
Proof.
  simpl. destruct (tok pw (c :: t)); [discriminate|]. intros H. split; [reflexivity|exact H].
Qed.

Lemma token_free_intro pw c t :
  tok pw (c :: t) = None -> token_free tok (isword c) t = true ->
  token_free tok pw (c :: t) = true.
Proof. simpl. intros -> H. exact H. Qed.

(** A text without tokens is left as it is. *)
Lemma replace_token_free s : forall pw,
  token_free tok pw s = true -> replace_tokens tok repl pw s = s.
Proof.
  induction s as [|c t IH]; intros pw H; [reflexivity|].
  apply token_free_cons in H. destruct H as [E H].
  rewrite (replace_tokens_cons tok repl tok_split), E. f_equal. apply IH. exact H.
Qed.

Variable r0 : char.
Variable r' : str.
Hypothesis repl_head : repl = r0 :: r'.

(** A character of the output other than the head of the placeholder was
    copied from the input. *)
Lemma replace_head pw s x out :
  replace_tokens tok repl pw s = x :: out -> x <> r0 ->
  exists t, s = x :: t /\ tok pw s = None
            /\ out = replace_tokens tok repl (isword x) t.
Proof.
  destruct s as [|c t]; [discriminate|].
  rewrite (replace_tokens_cons tok repl tok_split).
  destruct (tok pw (c :: t)) as [[w rest]|] eqn:E.
  - rewrite repl_head. simpl. intros H Hx. injection H as H _. congruence.
  - intros H _. injection H as -> <-. exists t. auto.
Qed.

End ScannerFacts.

Section HexFree.
Context {U : UnicodeDB}.

Lemma hex_token_some pw s p :
  hex_token pw s = Some p ->
  exists h t, s = 48 :: 120 :: h :: t /\ is_hexdigit h = true.
Proof.
  unfold hex_token. destruct s as [|a [|b [|h t]]]; try discriminate.
  destruct (N.eqb_spec a 48); simpl; [|discriminate].
  destruct (N.eqb_spec b 120); simpl; [|discriminate].
  destruct (is_hexdigit h) eqn:H; [|discriminate].
  intros _. subst. eauto.
Qed.

Lemma hex_token_head pw c X : c <> 48 -> hex_token pw (c :: X) = None.
Proof.
  intros H. destruct (hex_token pw (c :: X)) eqn:E; [|reflexivity].
  apply hex_token_some in E. destruct E as (h & t & E & _). congruence.
Qed.

Lemma hex_free_pw pw pw' s :
  token_free hex_token pw s = token_free hex_token pw' s.
Proof. destruct s; reflexivity. Qed.

Lemma hex_free_skip pw c X :
  c <> 48 -> token_free hex_token pw (c :: X) = token_free hex_token false X.
Proof.
  intros H.
  change (token_free hex_token pw (c :: X))
    with (match hex_token pw (c :: X) with
          | Some _ => false
          | None => token_free hex_token (isword c) X
          end).
  rewrite (hex_token_head pw X H). apply hex_free_pw.
Qed.

Lemma hex_free_HEX pw X :
  token_free hex_token pw (py "<HEX>" ++ X) = token_free hex_token false X.
Proof.
  change (py "<HEX>" ++ X) with (60 :: 72 :: 69 :: 88 :: 62 :: X).
  repeat (rewrite hex_free_skip by discriminate). reflexivity.
Qed.

Lemma hex_free_NUM pw X :
  token_free hex_token pw (py "<NUM>" ++ X) = token_free hex_token false X.
Proof.
  change (py "<NUM>" ++ X) with (60 :: 78 :: 85 :: 77 :: 62 :: X).
  repeat (rewrite hex_free_skip by discriminate). reflexivity.
Qed.

Lemma hex_free_SP pw X :
  token_free hex_token pw (py " " ++ X) = token_free hex_token false X.
Proof.
  change (py " " ++ X) with (32 :: X).
  rewrite hex_free_skip by discriminate. reflexivity.
Qed.

Variable tok : tokenizer.
Variable repl : str.
Hypothesis tok_split : forall pw s w rest,
  tok pw s = Some (w, rest) -> w <> [] /\ s = w ++ rest.
Variable r0 : char.
Variable r' : str.
Hypothesis repl_head : repl = r0 :: r'.
Hypothesis r0_not_x : r0 <> 120.
Hypothesis r0_not_hex : is_hexdigit r0 = false.
Hypothesis repl_free : forall pw X,
  token_free hex_token pw (repl ++ X) = token_free hex_token false X.

(** If no hexadecimal literal starts where the scanner copies a character,
    none starts anywhere in what it writes. *)
Lemma hex_free_replace n : forall s pw pw',
  (length s <= n)%nat ->
  (forall pre suf q, s = pre ++ suf -> tok q suf = None ->
                     hex_token false suf = None) ->
  token_free hex_token pw' (replace_tokens tok repl pw s) = true.
Proof.
  induction n as [|n IH]; intros s pw pw' Hn Hc.
  - destruct s; [reflexivity|simpl in Hn; lia].
  - destruct s as [|c t]; [reflexivity|].
    rewrite (replace_tokens_cons tok repl tok_split).
    destruct (tok pw (c :: t)) as [[w rest]|] eqn:E.
    + rewrite repl_free. pose proof E as E2. apply tok_split in E2.
      destruct E2 as [Hw Hs]. apply IH.
      * apply (f_equal (@length char)) in Hs. rewrite length_app in Hs.
        destruct w; [congruence|]. simpl in Hs, Hn. lia.
      * intros pre suf q Hp Hq. apply (Hc (w ++ pre) suf q); [|exact Hq].
        rewrite Hs, Hp. apply app_assoc.
    + apply token_free_intro.
      * destruct (hex_token pw' (c :: replace_tokens tok repl (isword c) t))
          as [p|] eqn:H; [|reflexivity].
        exfalso. apply hex_token_some in H. destruct H as (h & o & H & Hh).
        injection H as -> H.
        destruct (@replace_head _ tok repl tok_split r0 r' repl_head _ _ _ _ H) as (t1 & -> & _ & H1);
          [congruence|]. symmetry in H1.
        destruct (@replace_head _ tok repl tok_split r0 r' repl_head _ _ _ _ H1) as (t2 & -> & _ & _);
          [congruence|].
        specialize (Hc [] _ pw eq_refl E). simpl in Hc.
        rewrite Hh in Hc. discriminate.
      * apply IH; [simpl in Hn; lia|].
        intros pre suf q Hp Hq. apply (Hc (c :: pre) suf q); [|exact Hq].
        rewrite Hp. reflexivity.
Qed.

End HexFree.

Section Strip.
Context {U : UnicodeDB}.

Lemma forallb_takewhile p s : forallb p (takewhile p s) = true.
Proof.
  induction s as [|c t IH]; simpl; [reflexivity|].
  destruct (p c) eqn:E; simpl; [rewrite E; exact IH|reflexivity].
Qed.

Lemma rstrip_split p s :
  s = rstrip_by p s ++ rev (takewhile p (rev s)).
Proof.
  unfold rstrip_by. rewrite <- rev_app_distr, takewhile_dropwhile.
  symmetry. apply rev_involutive.
Qed.

Lemma forallb_rev (p : char -> bool) l : forallb p (rev l) = forallb p l.
Proof.
  induction l as [|c t IH]; simpl; [reflexivity|].
  rewrite forallb_app, IH. simpl. rewrite andb_true_r. apply andb_comm.
Qed.

(** What [rstrip] cuts off is white space. *)
Lemma rstrip_cut p s :
  exists b, s = rstrip_by p s ++ b /\ forallb p b = true.
Proof.
  exists (rev (takewhile p (rev s))). split; [apply rstrip_split|].
  rewrite forallb_rev. apply forallb_takewhile.
Qed.

Lemma dropwhile_idem p s : dropwhile p (dropwhile p s) = dropwhile p s.
Proof.
  induction s as [|c t IH]; simpl; [reflexivity|].
  destruct (p c) eqn:E; [exact IH|]. simpl. rewrite E. reflexivity.
Qed.

Lemma dropwhile_snoc p l c :
  p c = false -> dropwhile p (l ++ [c]) = dropwhile p l ++ [c].
Proof.
  intros H. induction l as [|d l IH]; simpl.
  - rewrite H. reflexivity.
  - destruct (p d); [exact IH|reflexivity].
Qed.

Lemma rstrip_cons p c s :
  p c = false -> rstrip_by p (c :: s) = c :: rstrip_by p s.
Proof.
  intros H. unfold rstrip_by. simpl.
  rewrite dropwhile_snoc by exact H. rewrite rev_app_distr. reflexivity.
Qed.

Lemma rstrip_idem p s : rstrip_by p (rstrip_by p s) = rstrip_by p s.
Proof.
  unfold rstrip_by. rewrite rev_involutive, dropwhile_idem. reflexivity.
Qed.

Lemma dropwhile_head p s :
  match dropwhile p s with c :: _ => p c = false | [] => True end.
Proof.
  induction s as [|c t IH]; simpl; [exact I|].
  destruct (p c) eqn:E; [exact IH|exact E].
Qed.

Lemma trim_idem s : trim (trim s) = trim s.
Proof.
  unfold trim. fold (rstrip_by isspace (dropwhile isspace s)).
  pose proof (dropwhile_head isspace s) as H.
  destruct (dropwhile isspace s) as [|c a].
  - reflexivity.
  - rewrite rstrip_cons by exact H. simpl. rewrite H.
    fold (rstrip_by isspace (c :: rstrip_by isspace a)).
    rewrite rstrip_cons by exact H. rewrite rstrip_idem. reflexivity.
Qed.

Lemma strip_trim s : strip s = trim s.
Proof. reflexivity. Qed.

End Strip.

Section HexFreeKey.
Context {U : UnicodeDB}.

Lemma hex_free_suffix pre : forall suf pw pw',
  token_free hex_token pw (pre ++ suf) = true ->
  token_free hex_token pw' suf = true.
Proof.
  induction pre as [|c pre IH]; intros suf pw pw' H.
  - rewrite (hex_free_pw pw' pw). exact H.
  - simpl app in H. apply token_free_cons in H. destruct H as [_ H].
    apply (IH suf (isword c) pw' H).
Qed.

Lemma hex_free_at pre suf pw :
  token_free hex_token pw (pre ++ suf) = true -> hex_token false suf = None.
Proof.
  intros H0. pose proof (@hex_free_suffix pre suf pw false H0) as H.
  destruct suf as [|c t]; [reflexivity|].
  apply token_free_cons in H. apply H.
Qed.

Lemma hex_token_prefix pw a b :
  hex_token pw (a ++ b) = None -> hex_token pw a = None.
Proof.
  destruct (hex_token pw a) as [p|] eqn:E; [|reflexivity].
  apply hex_token_some in E. destruct E as (h & t & -> & Hh).
  simpl. rewrite Hh. discriminate.
Qed.

Lemma hex_free_prefix a : forall b pw pw',
  token_free hex_token pw (a ++ b) = true ->
  token_free hex_token pw' a = true.
Proof.
  induction a as [|c a IH]; intros b pw pw' H; [reflexivity|].
  simpl app in H. apply token_free_cons in H. destruct H as [E H].
  apply token_free_intro.
  - apply (@hex_token_prefix pw' (c :: a) b). exact E.
  - apply (IH b (isword c) (isword c) H).
Qed.

Lemma mask_hex_free s : token_free hex_token false (mask_hex s) = true.
Proof.
  apply (@hex_free_replace _ hex_token (py "<HEX>") hex_token_split 60
           (py "HEX>") eq_refl) with (n := length s);
    [discriminate|reflexivity|apply hex_free_HEX|lia|].
  intros pre suf q _ H. exact H.
Qed.

Lemma mask_num_hex_free s :
  token_free hex_token false s = true ->
  token_free hex_token false (mask_num s) = true.
Proof.
  intros F.
  apply (@hex_free_replace _ num_token (py "<NUM>") num_token_split 60
           (py "NUM>") eq_refl) with (n := length s);
    [discriminate|reflexivity|apply hex_free_NUM|lia|].
  intros pre suf q -> _. apply (@hex_free_at pre suf false F).
Qed.

Lemma collapse_ws_hex_free s :
  token_free hex_token false s = true ->
  token_free hex_token false (collapse_ws s) = true.
Proof.
  intros F.
  apply (@hex_free_replace _ ws_token (py " ") ws_token_split 32
           [] eq_refl) with (n := length s);
    [discriminate|reflexivity|apply hex_free_SP|lia|].
  intros pre suf q -> _. apply (@hex_free_at pre suf false F).
Qed.

Lemma trim_hex_free s :
  token_free hex_token false s = true ->
  token_free hex_token false (trim s) = true.
Proof.
  intros F. unfold trim. fold (rstrip_by isspace (dropwhile isspace s)).
  assert (G : token_free hex_token false (dropwhile isspace s) = true).
  { rewrite <- (takewhile_dropwhile isspace s) in F.
    apply (@hex_free_suffix _ _ false false F). }
  destruct (rstrip_cut isspace (dropwhile isspace s)) as (b & E & _).
  rewrite E in G. apply (@hex_free_prefix _ _ false false G).
Qed.

End HexFreeKey.

Section NumFree.
Context {U : UnicodeDB}.

Lemma num_token_some pw c t w rest :
  num_token pw (c :: t) = Some (w, rest) ->
  pw = false /\ isdigit c = true /\ head_word (dropwhile isdigit t) = false
  /\ w = c :: takewhile isdigit t /\ rest = dropwhile isdigit t.
Proof.
  unfold num_token. destruct pw; simpl; [discriminate|].
  destruct (isdigit c); simpl; [|discriminate].
  destruct (head_word (dropwhile isdigit t)); simpl; [discriminate|].
  intros E. injection E as <- <-. auto.
Qed.

Lemma num_token_nodigit pw c t : isdigit c = false -> num_token pw (c :: t) = None.
Proof. intros H. unfold num_token. rewrite H, andb_false_r. reflexivity. Qed.

Lemma num_token_blocked pw c t :
  head_word (dropwhile isdigit t) = true -> num_token pw (c :: t) = None.
Proof. intros H. unfold num_token. rewrite H, !andb_false_r. reflexivity. Qed.

Lemma num_token_inside c t : num_token true (c :: t) = None.
Proof. reflexivity. Qed.

Lemma num_token_none pw c t :
  num_token pw (c :: t) = None ->
  pw = true \/ isdigit c = false \/ head_word (dropwhile isdigit t) = true.
Proof.
  unfold num_token. destruct pw; [auto|]. destruct (isdigit c); [|auto].
  destruct (head_word (dropwhile isdigit t)); [auto|discriminate].
Qed.

Lemma num_free_skip pw c X :
  isdigit c = false ->
  token_free num_token pw (c :: X) = token_free num_token (isword c) X.
Proof.
  intros H.
  change (token_free num_token pw (c :: X))
    with (match num_token pw (c :: X) with
          | Some _ => false
          | None => token_free num_token (isword c) X
          end).
  rewrite num_token_nodigit by exact H. reflexivity.
Qed.

Lemma num_free_NUM pw X :
  token_free num_token pw (py "<NUM>" ++ X) = token_free num_token false X.
Proof.
  change (py "<NUM>" ++ X) with (60 :: 78 :: 85 :: 77 :: 62 :: X).
  repeat (rewrite num_free_skip by reflexivity). reflexivity.
Qed.

Lemma num_free_SP pw X :
  token_free num_token pw (py " " ++ X) = token_free num_token false X.
Proof.
  change (py " " ++ X) with (32 :: X).
  rewrite num_free_skip by reflexivity. reflexivity.
Qed.

(** Only a digit at the head tells the two contexts apart. *)
Lemma num_free_weaken pw X :
  token_free num_token pw X = true -> head_digit X = false ->
  token_free num_token false X = true.
Proof.
  destruct X as [|c X]; [reflexivity|]. simpl head_digit. intros H D.
  rewrite num_free_skip in * by exact D. exact H.
Qed.

(** The digits of a word with a letter in it are copied. *)
Lemma mask_num_inside t :
  head_word (dropwhile isdigit t) = true ->
  head_word (dropwhile isdigit (replace_tokens num_token (py "<NUM>") true t))
  = true.
Proof.
  induction t as [|e t IH]; intros H; [discriminate|].
  rewrite (replace_tokens_cons num_token (py "<NUM>") num_token_split).
  rewrite num_token_inside. simpl in *.
  destruct (isdigit e) eqn:D.
  - rewrite (digit_word _ D). apply IH. exact H.
  - exact H.
Qed.

Lemma mask_num_head_digit pw rest :
  head_word rest = false ->
  head_digit (replace_tokens num_token (py "<NUM>") pw rest) = false.
Proof.
  destruct rest as [|e r]; [reflexivity|]. simpl. intros W.
  assert (D : isdigit e = false).
  { destruct (isdigit e) eqn:D; [|reflexivity].
    apply digit_word in D. congruence. }
  rewrite (replace_tokens_cons num_token (py "<NUM>") num_token_split).
  rewrite num_token_nodigit by exact D. simpl. exact D.
Qed.

(** Masking leaves no number to mask. *)
Lemma mask_num_free n : forall s pw, (length s <= n)%nat ->
  token_free num_token pw (replace_tokens num_token (py "<NUM>") pw s) = true.
Proof.
  induction n as [|n IH]; intros s pw Hn.
  - destruct s; [reflexivity|simpl in Hn; lia].
  - destruct s as [|c t]; [reflexivity|].
    rewrite (replace_tokens_cons num_token (py "<NUM>") num_token_split).
    destruct (num_token pw (c :: t)) as [[w rest]|] eqn:E.
    + rewrite num_free_NUM.
      pose proof (tok_shorter num_token num_token_split _ _ E) as L.
      apply num_token_some in E. destruct E as (_ & _ & W & _ & ->).
      apply num_free_weaken with (pw := isword (last w 0)).
      * apply IH. simpl in Hn, L. lia.
      * apply mask_num_head_digit. exact W.
    + apply token_free_intro; [|apply IH; simpl in Hn; lia].
      apply num_token_none in E. destruct E as [-> | [D | W]].
      * reflexivity.
      * apply num_token_nodigit. exact D.
      * destruct (isdigit c) eqn:D; [|apply num_token_nodigit; exact D].
        rewrite (digit_word _ D). apply num_token_blocked.
        apply mask_num_inside. exact W.
Qed.

Lemma last_takewhile (p : char -> bool) t : forall c,
  p c = true -> p (last (c :: takewhile p t) 0) = true.
Proof.
  induction t as [|e t IH]; intros c H; simpl; [exact H|].
  destruct (p e) eqn:E; [|exact H]. apply (IH e E).
Qed.

Lemma num_free_lstrip s :
  token_free num_token false s = true ->
  token_free num_token false (dropwhile isspace s) = true.
Proof.
  induction s as [|c t IH]; intros H; [reflexivity|]. simpl.
  destruct (isspace c) eqn:S; [|exact H].
  rewrite num_free_skip in H by (apply space_not_digit; exact S).
  rewrite (space_not_word _ S) in H. apply IH. exact H.
Qed.

Lemma collapse_ws_inside pw t :
  head_word (dropwhile isdigit t) = true ->
  head_word (dropwhile isdigit (replace_tokens ws_token (py " ") pw t)) = true.
Proof.
  revert pw. induction t as [|e t IH]; intros pw H; [discriminate|].
  rewrite (replace_tokens_cons ws_token (py " ") ws_token_split).
  simpl in H. unfold ws_token.
  destruct (isdigit e) eqn:D.
  - destruct (isspace e) eqn:S.
    + apply space_not_digit in S. congruence.
    + simpl. rewrite D. apply IH. exact H.
  - simpl in H. destruct (isspace e) eqn:S.
    + apply space_not_word in S. congruence.
    + simpl. rewrite D. exact H.
Qed.

(** Collapsing white space makes no number maskable. *)
Lemma collapse_ws_num_free n : forall s pw, (length s <= n)%nat ->
  token_free num_token pw s = true ->
  token_free num_token pw (replace_tokens ws_token (py " ") pw s) = true.
Proof.
  induction n as [|n IH]; intros s pw Hn F.
  - destruct s; [reflexivity|simpl in Hn; lia].
  - destruct s as [|c t]; [reflexivity|].
    rewrite (replace_tokens_cons ws_token (py " ") ws_token_split).
    destruct (ws_token pw (c :: t)) as [[w rest]|] eqn:E.
    + rewrite num_free_SP.
      pose proof (tok_shorter ws_token ws_token_split _ _ E) as L.
      unfold ws_token in E. destruct (isspace c) eqn:S; [|discriminate].
      injection E as <- <-.
      rewrite (space_not_word _ (last_takewhile isspace t c S)).
      apply IH; [simpl in Hn, L; lia|].
      apply num_free_lstrip.
      rewrite num_free_skip in F by (apply space_not_digit; exact S).
      rewrite (space_not_word _ S) in F. exact F.
    + apply token_free_cons in F. destruct F as [T F].
      apply token_free_intro; [|apply IH; [simpl in Hn; lia|exact F]].
      apply num_token_none in T. destruct T as [-> | [D | W]].
      * reflexivity.
      * apply num_token_nodigit. exact D.
      * apply num_token_blocked. apply collapse_ws_inside. exact W.
Qed.

Lemma head_word_spaces a : forall b,
  forallb isspace b = true ->
  head_word (dropwhile isdigit (a ++ b)) = head_word (dropwhile isdigit a).
Proof.
  induction a as [|e a IH]; intros b H.
  - simpl. destruct b as [|x b]; [reflexivity|]. simpl in *.
    apply andb_true_iff in H. destruct H as [S _].
    rewrite (space_not_digit _ S). simpl. apply space_not_word. exact S.
  - simpl. destruct (isdigit e); [apply IH; exact H|reflexivity].
Qed.

Lemma num_free_prefix a : forall b pw,
  forallb isspace b = true ->
  token_free num_token pw (a ++ b) = true ->
  token_free num_token pw a = true.
Proof.
  induction a as [|c a IH]; intros b pw B F; [reflexivity|].
  simpl app in F. apply token_free_cons in F. destruct F as [T F].
  apply token_free_intro; [|apply (IH b _ B F)].
  apply num_token_none in T. destruct T as [-> | [D | W]].
  - reflexivity.
  - apply num_token_nodigit. exact D.
  - apply num_token_blocked. rewrite head_word_spaces in W by exact B.
    exact W.
Qed.

Lemma trim_num_free s :
  token_free num_token false s = true ->
  token_free num_token false (trim s) = true.
Proof.
  intros F. apply num_free_lstrip in F.
  unfold trim. fold (rstrip_by isspace (dropwhile isspace s)).
  destruct (rstrip_cut isspace (dropwhile isspace s)) as (b & E & B).
  rewrite E in F. apply (num_free_prefix _ _ _ B F).
Qed.

End NumFree.

Section SingleSpaced.
Context {U : UnicodeDB}.

Lemma collapse_ws_head pw rest :
  head_space rest = false ->
  head_space (replace_tokens ws_token (py " ") pw rest) = false.
Proof.
  destruct rest as [|e r]; [reflexivity|]. simpl. intros S.
  rewrite (replace_tokens_cons ws_token (py " ") ws_token_split).
  unfold ws_token. rewrite S. simpl. exact S.
Qed.

Lemma head_space_dropwhile t : head_space (dropwhile isspace t) = false.
Proof.
  pose proof (dropwhile_head isspace t) as H.
  destruct (dropwhile isspace t); [reflexivity|exact H].
Qed.

(** Collapsing leaves single spaces. *)
Lemma collapse_ws_single n : forall s pw, (length s <= n)%nat ->
  single_spaced (replace_tokens ws_token (py " ") pw s) = true.
Proof.
  induction n as [|n IH]; intros s pw Hn.
  - destruct s; [reflexivity|simpl in Hn; lia].
  - destruct s as [|c t]; [reflexivity|].
    rewrite (replace_tokens_cons ws_token (py " ") ws_token_split).
    destruct (ws_token pw (c :: t)) as [[w rest]|] eqn:E.
    + pose proof (tok_shorter ws_token ws_token_split _ _ E) as L.
      unfold ws_token in E. destruct (isspace c) eqn:S; [|discriminate].
      injection E as <- <-.
      change (py " " ++ ?X) with (32 :: X).
      change (single_spaced (32 :: ?X))
        with (negb (head_space X) && single_spaced X).
      rewrite collapse_ws_head by apply head_space_dropwhile.
      apply IH. simpl in Hn, L. lia.
    + unfold ws_token in E. destruct (isspace c) eqn:S; [discriminate|].
      simpl. rewrite S. apply IH. simpl in Hn. lia.
Qed.

Lemma single_spaced_suffix p s :
  single_spaced s = true -> single_spaced (dropwhile p s) = true.
Proof.
  induction s as [|c t IH]; intros H; [reflexivity|]. simpl.
  destruct (p c); [|exact H]. simpl in H.
  apply andb_true_iff in H. apply IH, H.
Qed.

Lemma single_spaced_prefix a : forall b,
  single_spaced (a ++ b) = true -> single_spaced a = true.
Proof.
  induction a as [|c a IH]; intros b H; [reflexivity|]. simpl in *.
  apply andb_true_iff in H. destruct H as [H1 H2].
  rewrite (IH b H2), andb_true_r.
  destruct (isspace c); [|reflexivity].
  apply andb_true_iff in H1. destruct H1 as [-> H1]. simpl.
  destruct a; [reflexivity|exact H1].
Qed.

Lemma trim_single_spaced s :
  single_spaced s = true -> single_spaced (trim s) = true.
Proof.
  intros H. apply (single_spaced_suffix isspace) in H.
  unfold trim. fold (rstrip_by isspace (dropwhile isspace s)).
  destruct (rstrip_cut isspace (dropwhile isspace s)) as (b & E & _).
  rewrite E in H. apply (single_spaced_prefix _ _ H).
Qed.

(** A text with single spaces is left as it is. *)
Lemma collapse_ws_fixed s : forall pw,
  single_spaced s = true -> replace_tokens ws_token (py " ") pw s = s.
Proof.
  induction s as [|c t IH]; intros pw H; [reflexivity|].
  rewrite (replace_tokens_cons ws_token (py " ") ws_token_split).
  simpl in H. apply andb_true_iff in H. destruct H as [H1 H2].
  unfold ws_token. destruct (isspace c) eqn:S.
  - apply andb_true_iff in H1. destruct H1 as [C H1].
    apply N.eqb_eq in C. subst c.
    assert (T : dropwhile isspace t = t /\ takewhile isspace t = []).
    { destruct t as [|e t]; [auto|]. simpl in *.
      destruct (isspace e); [discriminate|auto]. }
    destruct T as [-> ->]. simpl. f_equal. apply IH. exact H2.
  - f_equal. apply IH. exact H2.
Qed.

End SingleSpaced.

(** * The key of a line *)

Section Key.
Context {U : UnicodeDB}.

Lemma masked_key_fixed line : masked_key (masked_key line) = masked_key line.
Proof.
  set (k := masked_key line).
  assert (Hh : token_free hex_token false k = true).
  { apply trim_hex_free, collapse_ws_hex_free, mask_num_hex_free, mask_hex_free. }
  assert (Hn : token_free num_token false k = true).
  { apply trim_num_free.
    apply (@collapse_ws_num_free _ (length (mask_num (mask_hex line))));
      [lia|].
    apply (@mask_num_free _ (length (mask_hex line))). lia. }
  assert (Hs : single_spaced k = true).
  { apply trim_single_spaced.
    apply (@collapse_ws_single _ (length (mask_num (mask_hex line)))). lia. }
  unfold masked_key at 1. unfold mask_hex, mask_num, collapse_ws.
  rewrite (replace_token_free hex_token (py "<HEX>") hex_token_split _ _ Hh).
  rewrite (replace_token_free num_token (py "<NUM>") num_token_split _ _ Hn).
  rewrite (collapse_ws_fixed _ _ Hs).
  apply trim_idem.
Qed.

Lemma normalize_error_key line :
  normalize_error line
  = if existsb (fun word => str_in word (lower line)) trigger_words
    then Some (masked_key line) else None.
Proof.
  unfold normalize_error, masked_key.
  rewrite re_sub_hex, re_sub_num, re_sub_ws, strip_trim.
  destruct (existsb _ trigger_words); reflexivity.
Qed.

End Key.

(** * Substrings *)

Lemma startswith_spec w : forall s,
  startswith w s = true <-> exists suf, s = w ++ suf.
Proof.
  induction w as [|a w IH]; intros s; simpl.
  - split; [intros _; exists s; reflexivity|reflexivity].
  - destruct s as [|b s].
    + split; [discriminate|intros [suf H]; discriminate].
    + rewrite andb_true_iff, N.eqb_eq, IH. split.
      * intros [-> [suf ->]]. exists suf. reflexivity.
      * intros [suf H]. injection H as -> ->. split; [reflexivity|eauto].
Qed.

Lemma str_in_spec w s : str_in w s = true <-> occurs_in w s.
Proof.
  unfold occurs_in. induction s as [|c s IH]; simpl.
  - rewrite orb_false_r, startswith_spec. split.
    + intros [suf H]. exists [], suf. exact H.
    + intros (pre & suf & H). destruct pre; [exists suf; exact H|discriminate].
  - rewrite orb_true_iff, startswith_spec, IH. split.
    + intros [[suf H] | (pre & suf & H)].
      * exists [], suf. exact H.
      * exists (c :: pre), suf. rewrite H. reflexivity.
    + intros (pre & suf & H). destruct pre as [|d pre].
      * left. exists suf. exact H.
      * right. injection H as _ H. exists pre, suf. exact H.
Qed.


Section Normalize.
Context {U : UnicodeDB}.

Lemma triggered_spec line :
  existsb (fun word => str_in word (lower line)) trigger_words = true
  <-> triggered line.
Proof.
  unfold triggered. rewrite existsb_exists. split.
  - intros (w & Hw & H). exists w. split; [exact Hw|apply str_in_spec; exact H].
  - intros (w & Hw & H). exists w. split; [exact Hw|apply str_in_spec; exact H].
Qed.


(** Claim C4, as the code has it.  The key of a line is a fixed point of
    the masking, so normalizing a key [k] again returns [k] whenever [k]
    still contains a trigger word; it returns no key when [k] contains none,
    which happens when a hexadecimal literal has taken the head of the only
    trigger word with it. *)
Theorem normalize_error_again (x k : str) :
  normalize_error x = Some k ->
  (triggered k -> normalize_error k = Some k)
  /\ (~ triggered k -> normalize_error k = None).
Proof.
  rewrite normalize_error_key.
  destruct (existsb _ trigger_words); [|discriminate].
  intros E. injection E as <-.
  rewrite normalize_error_key, masked_key_fixed, <- triggered_spec.
  destruct (existsb _ trigger_words); split.
  - reflexivity.
  - intros H. exfalso. apply H. reflexivity.
  - discriminate.
  - reflexivity.
Qed.

(** Claim C1, as the code has it.  For "Error 0x1F at line 42" the key is
    "Error <HEX> at line <NUM>": the hexadecimal literal and the number are
    masked and every other character keeps its letter case. *)
Theorem normalize_error_example :
  normalize_error (py "Error 0x1F at line 42")
  = Some (py "Error <HEX> at line <NUM>").
Proof. vm_compute. reflexivity. Qed.

End Normalize.

(** Claim C1 fails as written: the key is not "error <HEX> at line <NUM>",
    the leading word is not lower-cased. *)
Lemma normalize_error_not_lowercased :
  normalize_error (U := ascii_only) (py "Error 0x1F at line 42")
  <> Some (py "error <HEX> at line <NUM>").
Proof. vm_compute. discriminate. Qed.

(** Claim C4 fails on "0xfailed": the literal [0xfa] is masked, the key
    "<HEX>iled" is not empty and has no trigger word left, and normalizing
    it returns no key. *)
Lemma normalize_error_not_idempotent :
  normalize_error (U := ascii_only) (py "0xfailed") = Some (py "<HEX>iled")
  /\ py "<HEX>iled" <> []
  /\ normalize_error (U := ascii_only) (py "<HEX>iled") = None.
Proof. split; [|split]; vm_compute; congruence. Qed.

(** Claim C4 at "error 42  at 0x1F ": its key still has a trigger word and
    is its own key. *)
Lemma normalize_error_again_witness :
  normalize_error (U := ascii_only) (py "error 42  at 0x1F ")
  = Some (py "error <NUM> at <HEX>")
  /\ triggered (U := ascii_only) (py "error <NUM> at <HEX>")
  /\ normalize_error (U := ascii_only) (py "error <NUM> at <HEX>")
     = Some (py "error <NUM> at <HEX>").
Proof.
  assert (E : normalize_error (U := ascii_only) (py "error 42  at 0x1F ")
              = Some (py "error <NUM> at <HEX>")) by (vm_compute; reflexivity).
  assert (T : triggered (U := ascii_only) (py "error <NUM> at <HEX>")).
  { exists (py "error"). split; [left; reflexivity|].
    exists [], (py " <num> at <hex>"). vm_compute. reflexivity. }
  split; [exact E|]. split; [exact T|].
  exact (proj1 (normalize_error_again (U := ascii_only) _ E) T).
Defined.

Section MatchLine.
Context {U : UnicodeDB}.


(** Claim C10.  An empty keyword or an empty severity counts as no
    criterion: alone it accepts every line, and next to other criteria it
    changes nothing.  The empty string also occurs in every line, so the two
    readings agree. *)
Theorem match_line_empty_criterion (l : str) (regex : option Pattern)
  (keyword severity : option str) :
  match_line l (Some []) None None = true
  /\ match_line l None None (Some []) = true
  /\ match_line l (Some []) regex severity = match_line l None regex severity
  /\ match_line l keyword regex (Some []) = match_line l keyword regex None
  /\ occurs_in (lower []) (lower l).
Proof.
  repeat split; try reflexivity. exists [], (lower l). reflexivity.
Qed.

End MatchLine.

Section Analyzer.
Variable patterns : list (str * Pattern).

Lemma scan_line_classify i l : forall results,
  scan_line i l patterns results = results ++ classify i l patterns.
Proof.
  unfold scan_line, classify. induction patterns as [|p ps IH]; intros results.
  - simpl. symmetry. apply app_nil_r.
  - simpl. destruct (search (snd p) l).
    + rewrite IH, <- app_assoc. reflexivity.
    + apply IH.
Qed.

Lemma analyze_from_classify lines : forall i results,
  analyze_from i lines patterns results
  = results ++ classify_all i lines patterns.
Proof.
  induction lines as [|l rest IH]; intros i results; simpl.
  - symmetry. apply app_nil_r.
  - rewrite IH, scan_line_classify, <- app_assoc. reflexivity.
Qed.

Lemma analyze_lines_classify lines :
  analyze_lines lines patterns = classify_all 1 lines patterns.
Proof. unfold analyze_lines. rewrite analyze_from_classify. reflexivity. Qed.

Lemma classify_line_no i l m : In m (classify i l patterns) -> line_no m = i.
Proof.
  unfold classify. rewrite in_map_iff. intros (p & <- & _). reflexivity.
Qed.

Lemma classify_all_line_no lines : forall i m,
  In m (classify_all i lines patterns) -> (i <= line_no m)%nat.
Proof.
  induction lines as [|l rest IH]; intros i m H; simpl in H; [contradiction|].
  apply in_app_or in H. destruct H as [H|H].
  - apply classify_line_no in H. lia.
  - apply IH in H. lia.
Qed.

Lemma sorted_app (A : Type) (R : A -> A -> Prop) (a b : list A) :
  StronglySorted R a -> StronglySorted R b ->
  (forall x y, In x a -> In y b -> R x y) ->
  StronglySorted R (a ++ b).
Proof.
  intros Ha Hb H. induction Ha as [|x a Ha IH Hx]; simpl; [exact Hb|].
  constructor.
  - apply IH. intros u v Hu Hv. apply H; [right; exact Hu|exact Hv].
  - apply Forall_app. split; [exact Hx|].
    apply Forall_forall. intros y Hy. apply H; [left; reflexivity|exact Hy].
Qed.

Lemma classify_sorted i l : StronglySorted non_decreasing (classify i l patterns).
Proof.
  unfold classify.
  induction (filter (fun p => search (snd p) l) patterns) as [|p ps IH]; simpl.
  - constructor.
  - constructor; [exact IH|]. apply Forall_forall. intros m Hm.
    apply in_map_iff in Hm. destruct Hm as (q & <- & _).
    unfold non_decreasing. simpl. lia.
Qed.

Lemma classify_all_sorted lines : forall i,
  StronglySorted non_decreasing (classify_all i lines patterns).
Proof.
  induction lines as [|l rest IH]; intros i; simpl; [constructor|].
  apply sorted_app; [apply classify_sorted|apply IH|].
  intros x y Hx Hy. apply classify_line_no in Hx.
  apply classify_all_line_no in Hy. unfold non_decreasing. lia.
Qed.

Lemma filter_none (A : Type) (f : A -> bool) (l : list A) :
  (forall x, In x l -> f x = false) -> filter f l = [].
Proof.
  induction l as [|a l IH]; intros H; simpl; [reflexivity|].
  rewrite (H a) by (left; reflexivity). apply IH.
  intros x Hx. apply H. right. exact Hx.
Qed.

Lemma filter_all (A : Type) (f : A -> bool) (l : list A) :
  (forall x, In x l -> f x = true) -> filter f l = l.
Proof.
  induction l as [|a l IH]; intros H; simpl; [reflexivity|].
  rewrite (H a) by (left; reflexivity). f_equal. apply IH.
  intros x Hx. apply H. right. exact Hx.
Qed.

Lemma classify_all_line lines : forall i j l,
  nth_error lines j = Some l ->
  filter (fun m => Nat.eqb (line_no m) (i + j)) (classify_all i lines patterns)
  = classify (i + j) l patterns.
Proof.
  induction lines as [|l0 rest IH]; intros i j l H.
  - destruct j; discriminate.
  - simpl. rewrite filter_app. destruct j as [|j]; simpl in H.
    + injection H as ->. rewrite Nat.add_0_r.
      rewrite filter_all, filter_none.
      * apply app_nil_r.
      * intros m Hm. apply classify_all_line_no in Hm.
        apply Nat.eqb_neq. lia.
      * intros m Hm. apply classify_line_no in Hm. apply Nat.eqb_eq. exact Hm.
    + rewrite filter_none.
      * simpl. replace (i + S j)%nat with (S i + j)%nat by lia.
        apply IH. exact H.
      * intros m Hm. apply classify_line_no in Hm. apply Nat.eqb_neq. lia.
Qed.

(** Claim C6.  The Matches [analyze_lines] emits for the line at position
    [i] (numbered [i + 1]) are one Match for each pattern of the set whose
    [search] finds an occurrence in the line, and they stand in the order of
    the pattern set. *)
Theorem analyze_lines_one_match_per_tag (lines : list str) (i : nat) (l : str) :
  nth_error lines i = Some l ->
  filter (fun m => Nat.eqb (line_no m) (S i)) (analyze_lines lines patterns)
  = map (fun p => {| line_no := S i; tag := fst p; line := rstrip_nl l |})
        (filter (fun p => search (snd p) l) patterns).
Proof.
  intros H. rewrite analyze_lines_classify.
  apply (classify_all_line lines 1 i H).
Qed.

End Analyzer.

Lemma dict_incr_total d k : total_count (dict_incr d k) = S (total_count d).
Proof.
  unfold dict_incr, total_count. induction d as [|[k' v] d IH]; simpl.
  - reflexivity.
  - destruct (str_eqb k' k); simpl.
    + lia.
    + rewrite IH. lia.
Qed.

Lemma summary_total_from matches : forall out,
  total_count (fold_left
     (fun out m => dict_set out (tag m) (dict_get out (tag m) 0 + 1)%nat)
     matches out) = (total_count out + length matches)%nat.
Proof.
  induction matches as [|m ms IH]; intros out; simpl.
  - lia.
  - rewrite IH. fold (dict_incr out (tag m)). rewrite dict_incr_total. lia.
Qed.

Lemma summary_total (matches : list Match) :
  total_count (summary matches) = length matches.
Proof. unfold summary. rewrite summary_total_from. reflexivity. Qed.

Section SortFacts.
Variable A : Type.
Variable before : A -> A -> bool.

Lemma insert_sorted_perm x l : Permutation (insert_sorted before x l) (x :: l).
Proof.
  induction l as [|y r IH]; simpl; [reflexivity|].
  destruct (before y x); [|reflexivity].
  rewrite IH. apply perm_swap.
Qed.

Lemma sorted_perm l : Permutation (sorted before l) l.
Proof.
  induction l as [|x l IH]; simpl; [reflexivity|].
  rewrite insert_sorted_perm, IH. reflexivity.
Qed.

(** An element passes only those that stand strictly before it, so the
    elements a predicate selects keep their order when none of them stands
    strictly before another. *)
Lemma insert_sorted_filter (f : A -> bool) x l :
  (forall a b, f a = true -> f b = true -> before a b = false) ->
  filter f (insert_sorted before x l) = filter f (x :: l).
Proof.
  intros H. induction l as [|y r IH]; [reflexivity|].
  simpl insert_sorted. destruct (before y x) eqn:B; [|reflexivity].
  simpl. simpl in IH. rewrite IH.
  destruct (f x) eqn:Fx, (f y) eqn:Fy; try reflexivity.
  rewrite (H y x Fy Fx) in B. discriminate.
Qed.

Lemma sorted_stable (f : A -> bool) l :
  (forall a b, f a = true -> f b = true -> before a b = false) ->
  filter f (sorted before l) = filter f l.
Proof.
  intros H. induction l as [|x l IH]; [reflexivity|].
  simpl sorted. rewrite insert_sorted_filter by exact H.
  simpl. rewrite IH. reflexivity.
Qed.

Hypothesis before_asym : forall a b, before a b = true -> before b a = false.
Hypothesis before_trans : forall a b c,
  before b a = false -> before c b = false -> before c a = false.

Lemma insert_sorted_sorted x l :
  StronglySorted (in_order before) l ->
  StronglySorted (in_order before) (insert_sorted before x l).
Proof.
  induction 1 as [|y r Hr IH Hy]; simpl.
  - constructor; constructor.
  - destruct (before y x) eqn:B.
    + constructor; [exact IH|].
      apply (Permutation_Forall (x := x :: r)).
      * symmetry. apply insert_sorted_perm.
      * constructor; [apply before_asym; exact B|exact Hy].
    + constructor; [constructor; assumption|].
      constructor; [exact B|].
      apply Forall_forall. intros z Hz.
      rewrite Forall_forall in Hy. specialize (Hy z Hz).
      apply (before_trans B Hy).
Qed.

Lemma sorted_sorted l : StronglySorted (in_order before) (sorted before l).
Proof.
  induction l as [|x l IH]; simpl; [constructor|].
  apply insert_sorted_sorted. exact IH.
Qed.

End SortFacts.

Lemma in_firstn (A : Type) (l : list A) n y : In y (firstn n l) -> In y l.
Proof.
  intros H. rewrite <- (firstn_skipn n l). apply in_or_app. left. exact H.
Qed.

Lemma firstn_min (A : Type) (l : list A) n :
  firstn (Nat.min n (length l)) l = firstn n l.
Proof.
  destruct (Nat.le_ge_cases n (length l)) as [H|H].
  - rewrite Nat.min_l by exact H. reflexivity.
  - rewrite Nat.min_r by exact H. rewrite !firstn_all2; [reflexivity|exact H|lia].
Qed.

Lemma sorted_firstn (A : Type) (R : A -> A -> Prop) (l : list A) : forall n,
  StronglySorted R l -> StronglySorted R (firstn n l).
Proof.
  intros n H. revert n. induction H as [|x l H IH Hx]; intros n.
  - rewrite firstn_nil. constructor.
  - destruct n; simpl; [constructor|].
    constructor; [apply IH|].
    apply Forall_forall. intros y Hy. rewrite Forall_forall in Hx.
    apply Hx. apply (in_firstn l n). exact Hy.
Qed.

Lemma sorted_app_order (A : Type) (R : A -> A -> Prop) (a b : list A) :
  StronglySorted R (a ++ b) -> forall x y, In x a -> In y b -> R x y.
Proof.
  induction a as [|z a IH]; simpl; intros S x y Hx Hy; [contradiction|].
  inversion S as [|? ? S' F]; subst. destruct Hx as [->|Hx].
  - rewrite Forall_forall in F. apply (F y). apply in_or_app. right. exact Hy.
  - apply (IH S' x y Hx Hy).
Qed.

Lemma sorted_weaken (A : Type) (R R' : A -> A -> Prop) (l : list A) :
  (forall a b, R a b -> R' a b) -> StronglySorted R l -> StronglySorted R' l.
Proof.
  intros H. induction 1 as [|x l Hl IH Hx]; constructor; [exact IH|].
  apply (Forall_impl _ (H x) Hx).
Qed.

(** * Strings in code point order *)

Lemma str_ltb_asym a : forall b, str_ltb a b = true -> str_ltb b a = false.
Proof.
  induction a as [|x a IH]; intros [|y b] H; simpl in *; try reflexivity;
    try discriminate.
  destruct (N.ltb_spec x y), (N.ltb_spec y x), (N.eqb_spec x y),
    (N.eqb_spec y x); simpl in *; try lia; try discriminate; try reflexivity.
  apply IH. exact H.
Qed.

Lemma str_leb_trans a : forall b c,
  str_ltb b a = false -> str_ltb c b = false -> str_ltb c a = false.
Proof.
  induction a as [|x a IH]; intros b c H1 H2.
  - destruct c; reflexivity.
  - destruct b as [|y b]; [discriminate|].
    destruct c as [|z c]; [discriminate|]. simpl in *.
    destruct (N.ltb_spec y x), (N.ltb_spec z y), (N.ltb_spec z x),
      (N.eqb_spec y x), (N.eqb_spec z y), (N.eqb_spec z x);
      simpl in *; try lia; try discriminate; try reflexivity.
    apply (IH b c H1 H2).
Qed.

(** * Ranking *)

Lemma by_count_desc_asym a b :
  by_count_desc a b = true -> by_count_desc b a = false.
Proof.
  unfold by_count_desc. rewrite Nat.ltb_lt, Nat.ltb_ge. lia.
Qed.

Lemma by_count_desc_trans a b c :
  by_count_desc b a = false -> by_count_desc c b = false ->
  by_count_desc c a = false.
Proof. unfold by_count_desc. rewrite !Nat.ltb_ge. lia. Qed.

Lemma by_count_then_key_asym a b :
  by_count_then_key a b = true -> by_count_then_key b a = false.
Proof.
  unfold by_count_then_key.
  destruct (Nat.ltb_spec (snd b) (snd a)), (Nat.ltb_spec (snd a) (snd b)),
    (Nat.eqb_spec (snd a) (snd b)), (Nat.eqb_spec (snd b) (snd a));
    simpl; try lia; try discriminate; try reflexivity.
  apply str_ltb_asym.
Qed.

Lemma by_count_then_key_trans a b c :
  by_count_then_key b a = false -> by_count_then_key c b = false ->
  by_count_then_key c a = false.
Proof.
  unfold by_count_then_key.
  destruct (Nat.ltb_spec (snd a) (snd b)), (Nat.ltb_spec (snd b) (snd c)),
    (Nat.ltb_spec (snd a) (snd c)),
    (Nat.eqb_spec (snd b) (snd a)), (Nat.eqb_spec (snd c) (snd b)),
    (Nat.eqb_spec (snd c) (snd a));
    simpl; try lia; try discriminate; try reflexivity.
  apply str_leb_trans.
Qed.

Lemma most_common_sorted c n : StronglySorted count_order (most_common c n).
Proof.
  unfold most_common. destruct (n <=? 0)%Z; [constructor|].
  apply sorted_firstn.
  apply (sorted_weaken (R := in_order by_count_desc)).
  - unfold in_order, by_count_desc, count_order. intros a b.
    rewrite Nat.ltb_ge. lia.
  - apply sorted_sorted; [apply by_count_desc_asym|apply by_count_desc_trans].
Qed.

Lemma most_common_length c n :
  length (most_common c n) = Nat.min (Z.to_nat n) (length c).
Proof.
  unfold most_common. destruct (Z.leb_spec n 0).
  - replace (Z.to_nat n) with 0%nat by lia. reflexivity.
  - rewrite length_firstn, (Permutation_length (sorted_perm by_count_desc c)).
    reflexivity.
Qed.

Lemma most_common_all c n :
  (Z.of_nat (length c) <= n)%Z -> Permutation (most_common c n) c.
Proof.
  intros H. unfold most_common. destruct (Z.leb_spec n 0).
  - destruct c; [reflexivity|simpl in H; lia].
  - rewrite firstn_all2; [apply sorted_perm|].
    rewrite (Permutation_length (sorted_perm by_count_desc c)). lia.
Qed.

Lemma most_common_ties c n v :
  exists rest,
    filter (has_count v) c = filter (has_count v) (most_common c n) ++ rest.
Proof.
  assert (S : filter (has_count v) (sorted by_count_desc c)
              = filter (has_count v) c).
  { apply sorted_stable. unfold has_count, by_count_desc. intros a b Ha Hb.
    apply Nat.eqb_eq in Ha, Hb. apply Nat.ltb_ge. lia. }
  unfold most_common. destruct (n <=? 0)%Z.
  - exists (filter (has_count v) c). reflexivity.
  - exists (filter (has_count v) (skipn (Z.to_nat n) (sorted by_count_desc c))).
    rewrite <- filter_app, firstn_skipn. symmetry. exact S.
Qed.

Lemma summary_order_sorted s : StronglySorted rank_order (summary_order s).
Proof.
  apply (sorted_weaken (R := in_order by_count_then_key)).
  - unfold in_order, by_count_then_key, rank_order. intros a b H.
    apply orb_false_iff in H. destruct H as [H1 H2].
    apply Nat.ltb_ge in H1. apply andb_false_iff in H2.
    destruct (Nat.eq_dec (snd a) (snd b)) as [E|E].
    + right. split; [exact E|]. destruct H2 as [H2|H2]; [|exact H2].
      apply Nat.eqb_neq in H2. congruence.
    + left. lia.
  - apply sorted_sorted;
      [apply by_count_then_key_asym|apply by_count_then_key_trans].
Qed.

Lemma sorted_desc_sorted c :
  StronglySorted count_order (sorted by_count_desc c).
Proof.
  apply (sorted_weaken (R := in_order by_count_desc)).
  - unfold in_order, by_count_desc, count_order. intros a b.
    rewrite Nat.ltb_ge. lia.
  - apply sorted_sorted; [apply by_count_desc_asym|apply by_count_desc_trans].
Qed.

Lemma sorted_desc_stable c v :
  filter (has_count v) (sorted by_count_desc c) = filter (has_count v) c.
Proof.
  apply sorted_stable. unfold has_count, by_count_desc. intros a b Ha Hb.
  apply Nat.eqb_eq in Ha, Hb. apply Nat.ltb_ge. lia.
Qed.

(** A list has one arrangement by descending count that keeps the entries of
    equal count in their order. *)
Lemma stable_order_unique (l1 : list (str * nat)) : forall l2,
  StronglySorted count_order l1 -> StronglySorted count_order l2 ->
  Permutation l1 l2 ->
  (forall v, filter (has_count v) l1 = filter (has_count v) l2) ->
  l1 = l2.
Proof.
  induction l1 as [|x l1 IH]; intros l2 S1 S2 P F.
  - apply Permutation_nil in P. congruence.
  - destruct l2 as [|y l2];
      [apply Permutation_sym, Permutation_nil in P; discriminate|].
    inversion S1 as [|? ? S1' F1]; subst.
    inversion S2 as [|? ? S2' F2]; subst.
    rewrite Forall_forall in F1, F2.
    assert (C : snd x = snd y).
    { assert (Hx : In x (y :: l2))
        by (apply (Permutation_in _ P); left; reflexivity).
      assert (Hy : In y (x :: l1))
        by (apply (Permutation_in _ (Permutation_sym P)); left; reflexivity).
      destruct Hx as [Hx|Hx]; [congruence|].
      destruct Hy as [Hy|Hy]; [congruence|].
      pose proof (F1 y Hy) as O1. pose proof (F2 x Hx) as O2.
      unfold count_order in O1, O2. lia. }
    assert (E : x = y).
    { pose proof (F (snd x)) as Fx. simpl in Fx.
      assert (Hx : has_count (snd x) x = true) by apply Nat.eqb_refl.
      assert (Hy : has_count (snd x) y = true)
        by (unfold has_count; rewrite C; apply Nat.eqb_refl).
      rewrite Hx, Hy in Fx. congruence. }
    subst y. f_equal. apply IH; try assumption.
    + apply (Permutation_cons_inv P).
    + intros v. pose proof (F v) as Fv. simpl in Fv.
      destruct (has_count v x); congruence.
Qed.

(** Claim C3, as the code has it.  [print_summary] ranks with
    [Counter.most_common]: nothing for [top_n <= 0], otherwise the first
    [min top_n (number of keys)] entries, all of them when [top_n] is at
    least the number of keys, by descending count, entries of equal count in
    the order in which their keys were first counted.  The entries it keeps
    are those of the highest counts: with the entries it leaves out they make
    up the counter, no entry left out has a higher count than an entry kept,
    and no other list does all this.  The order by descending count with ties
    by ascending key is that of the tag summary in the package's command
    line, which lists every entry. *)
Theorem rank_as_implemented (c : dict) (top_n : Z) :
  ((top_n <= 0)%Z -> most_common c top_n = [])
  /\ length (most_common c top_n) = Nat.min (Z.to_nat top_n) (length c)
  /\ ((Z.of_nat (length c) <= top_n)%Z -> Permutation (most_common c top_n) c)
  /\ StronglySorted count_order (most_common c top_n)
  /\ (forall v, exists rest,
        filter (has_count v) c
        = filter (has_count v) (most_common c top_n) ++ rest)
  /\ (exists rest,
        Permutation (most_common c top_n ++ rest) c
        /\ StronglySorted count_order (most_common c top_n ++ rest)
        /\ (forall v, filter (has_count v) (most_common c top_n ++ rest)
                      = filter (has_count v) c)
        /\ (forall x y, In x (most_common c top_n) -> In y rest ->
              (snd y <= snd x)%nat))
  /\ (forall kept rest,
        length kept = Nat.min (Z.to_nat top_n) (length c) ->
        Permutation (kept ++ rest) c ->
        StronglySorted count_order (kept ++ rest) ->
        (forall v, filter (has_count v) (kept ++ rest)
                   = filter (has_count v) c) ->
        kept = most_common c top_n)
  /\ Permutation (summary_order c) c
  /\ StronglySorted rank_order (summary_order c).
Proof.
  assert (L : length (sorted by_count_desc c) = length c)
    by apply (Permutation_length (sorted_perm by_count_desc c)).
  split; [|split; [|split; [|split; [|split; [|split; [|split; [|split]]]]]]].
  - intros H. unfold most_common. apply Z.leb_le in H. rewrite H. reflexivity.
  - apply most_common_length.
  - apply most_common_all.
  - apply most_common_sorted.
  - intros v. apply most_common_ties.
  - exists (skipn (length (most_common c top_n)) (sorted by_count_desc c)).
    assert (E : most_common c top_n
                ++ skipn (length (most_common c top_n)) (sorted by_count_desc c)
                = sorted by_count_desc c).
    { rewrite most_common_length. unfold most_common.
      destruct (Z.leb_spec top_n 0).
      - replace (Z.to_nat top_n) with 0%nat by lia. reflexivity.
      - rewrite <- (firstn_min (sorted by_count_desc c) (Z.to_nat top_n)), L.
        apply firstn_skipn. }
    rewrite E. split; [apply sorted_perm|]. split; [apply sorted_desc_sorted|].
    split; [intros v; apply sorted_desc_stable|].
    intros x y Hx Hy. pose proof (sorted_desc_sorted c) as S.
    rewrite <- E in S. apply (@sorted_app_order _ _ _ _ S x y Hx Hy).
  - intros kept rest Hl P S F.
    assert (E : kept ++ rest = sorted by_count_desc c).
    { apply stable_order_unique.
      - exact S.
      - apply sorted_desc_sorted.
      - rewrite P. symmetry. apply sorted_perm.
      - intros v. rewrite F. symmetry. apply sorted_desc_stable. }
    assert (K : kept = firstn (length kept) (sorted by_count_desc c)).
    { rewrite <- E, firstn_app, Nat.sub_diag, firstn_all. simpl.
      symmetry. apply app_nil_r. }
    rewrite K, Hl. unfold most_common. destruct (Z.leb_spec top_n 0).
    + replace (Z.to_nat top_n) with 0%nat by lia. reflexivity.
    + rewrite <- L. apply firstn_min.
  - apply sorted_perm.
  - apply summary_order_sorted.
Qed.

Lemma dict_get_set d k v k' default :
  dict_get (dict_set d k v) k' default
  = if str_eqb k k' then v else dict_get d k' default.
Proof.
  unfold str_eqb. induction d as [|[k0 v0] d IH]; simpl.
  - unfold str_eqb. destruct (list_eq_dec N.eq_dec k k'); reflexivity.
  - unfold str_eqb in *.
    destruct (list_eq_dec N.eq_dec k0 k) as [E|E]; simpl; unfold str_eqb.
    + subst k0. destruct (list_eq_dec N.eq_dec k k'); reflexivity.
    + destruct (list_eq_dec N.eq_dec k0 k') as [E'|E'].
      * subst k0. destruct (list_eq_dec N.eq_dec k k'); [congruence|reflexivity].
      * exact IH.
Qed.

Lemma dict_set_keys d k v x :
  In x (map fst (dict_set d k v)) <-> x = k \/ In x (map fst d).
Proof.
  induction d as [|[k0 v0] d IH]; simpl.
  - intuition.
  - unfold str_eqb. destruct (list_eq_dec N.eq_dec k0 k) as [E|E]; simpl.
    + subst. intuition.
    + rewrite IH. intuition.
Qed.

Lemma dict_set_nodup d k v :
  NoDup (map fst d) -> NoDup (map fst (dict_set d k v)).
Proof.
  induction d as [|[k0 v0] d IH]; simpl; intros H.
  - constructor; [intros []|constructor].
  - inversion H as [|? ? Hn Hd]; subst. unfold str_eqb.
    destruct (list_eq_dec N.eq_dec k0 k) as [E|E]; simpl.
    + constructor; assumption.
    + constructor; [|apply IH; exact Hd].
      rewrite dict_set_keys. intros [->|Hi]; [congruence|contradiction].
Qed.

Lemma summary_from_spec matches : forall out,
  NoDup (map fst out) ->
  let s := fold_left
     (fun out m => dict_set out (tag m) (dict_get out (tag m) 0 + 1)%nat)
     matches out in
  NoDup (map fst s)
  /\ forall t, dict_get s t 0
               = (dict_get out t 0
                  + length (filter (fun m => str_eqb (tag m) t) matches))%nat.
Proof.
  induction matches as [|m ms IH]; intros out H; simpl.
  - split; [exact H|]. intros t. lia.
  - destruct (IH (dict_set out (tag m) (dict_get out (tag m) 0 + 1)%nat)
                 (dict_set_nodup _ _ _ H)) as [N G].
    split; [exact N|]. intros t. rewrite G, dict_get_set.
    destruct (str_eqb (tag m) t) eqn:E; simpl; [|reflexivity].
    unfold str_eqb in E. destruct (list_eq_dec N.eq_dec (tag m) t); [|discriminate].
    subst t. lia.
Qed.

(** Claim C7.  The counts of [summary] add up to the number of Match
    records: the summary has one entry for each tag, and the entry of a tag
    counts the Matches with that tag. *)
Theorem summary_counts_every_match (matches : list Match) :
  total_count (summary matches) = length matches
  /\ NoDup (map fst (summary matches))
  /\ (forall t, dict_get (summary matches) t 0
                = length (filter (fun m => str_eqb (tag m) t) matches)).
Proof.
  split; [apply summary_total|].
  destruct (@summary_from_spec matches [] (NoDup_nil _)) as [N G].
  split; [exact N|]. intros t. apply (G t).
Qed.

Section Run.
Context {U : UnicodeDB}.
Variable re_compile : str -> option Pattern.
Hypothesis empty_pattern_compiles : re_compile [] <> None.

(** Claim C8.  When [re.compile] refuses the pattern given by the user,
    [analyze_logs] raises the error of the compilation and leaves the world
    as it found it: no line has been read, nothing has been printed, and the
    counters have not been created yet. *)
Theorem analyze_logs_fails_fast (p : str) (keyword severity : option str)
  (show_summary : bool) (top_n : Z) (w : World) :
  re_compile p = None ->
  analyze_logs re_compile keyword (Some p) severity show_summary top_n w
  = Raised (re_error p) w.
Proof.
  intros H. unfold analyze_logs, bind.
  destruct p as [|c p]; [contradiction|]. simpl. rewrite H. reflexivity.
Qed.

End Run.

(** Claim C8 at the pattern "(" and a file of two lines. *)
Lemma analyze_logs_fails_fast_witness :
  sample_compile [] <> None
  /\ sample_compile (py "(") = None
  /\ analyze_logs (U := ascii_only) sample_compile None (Some (py "(")) None
       true 5 sample_world
     = Raised (re_error (py "(")) sample_world.
Proof.
  split; [discriminate|]. split; [reflexivity|].
  apply (@analyze_logs_fails_fast ascii_only sample_compile).
  - discriminate.
  - reflexivity.
Defined.

(** Claim C3 fails on the file "warning b", "error a": both keys are counted
    once, and the summary lists "warning b" before "error a". *)
Lemma most_common_ties_not_by_key :
  exists st w',
    analyze_logs (U := ascii_only) sample_compile None None None true 5
      sample_world = Returned st w'
    /\ ~ StronglySorted rank_order (most_common (error_counter st) 5).
Proof.
  exists {| total_lines := 2; matched_lines := 2;
            error_counter := [(py "warning b", 1%nat); (py "error a", 1%nat)] |}.
  eexists. split; [vm_compute; reflexivity|].
  replace (most_common _ 5)
    with [(py "warning b", 1%nat); (py "error a", 1%nat)]
    by (vm_compute; reflexivity).
  intros H. inversion H as [|a l _ F]; subst.
  inversion F as [|b l' R _]; subst. unfold rank_order in R. simpl in R.
  destruct R as [R|[_ R]]; [lia|]. vm_compute in R. discriminate.
Qed.

(** Claim C2 fails on "Failed password for invalid user root": the line
    matches ERROR and AUTH_FAIL, and both Matches have line number 1. *)
Lemma line_no_not_strictly_increasing :
  ~ StronglySorted strictly_increasing
      (analyze_lines [py "Failed password for invalid user root"]
         (DEFAULT_PATTERNS (U := ascii_only))).
Proof.
  intros H.
  assert (E : map line_no
                (analyze_lines [py "Failed password for invalid user root"]
                   (DEFAULT_PATTERNS (U := ascii_only))) = [1; 1]%nat)
    by (vm_compute; reflexivity).
  destruct (analyze_lines _ _) as [|a [|b [|c l]]]; try discriminate.
  injection E as Ea Eb. inversion H as [|? ? _ F]; subst.
  inversion F as [|? ? R _]; subst. unfold strictly_increasing in R. lia.
Qed.

(** Claim C6 at the second of two lines, with the default patterns. *)
Lemma analyze_lines_one_match_per_tag_witness :
  nth_error sample_lines 1 = Some (py "Failed password for invalid user root")
  /\ filter (fun m => Nat.eqb (line_no m) 2)
        (analyze_lines sample_lines (DEFAULT_PATTERNS (U := ascii_only)))
     = map (fun p => {| line_no := 2; tag := fst p;
                        line := rstrip_nl (py "Failed password for invalid user root") |})
           (filter (fun p => search (snd p) (py "Failed password for invalid user root"))
                   (DEFAULT_PATTERNS (U := ascii_only))).
Proof.
  split; [reflexivity|].
  apply (@analyze_lines_one_match_per_tag
           (DEFAULT_PATTERNS (U := ascii_only)) sample_lines 1).
  reflexivity.
Defined.

(** * The scenarios of the specification *)

Section Scenarios.
Context {U : UnicodeDB}.

Example scenario_matches :
  map (fun m => (line_no m, tag m)) (analyze_lines scenario DEFAULT_PATTERNS)
  = [(2, py "ERROR"); (3, py "WARNING"); (4, py "ERROR")]%nat.
Proof. vm_compute. reflexivity. Qed.

Example scenario_summary :
  summary_order (summary (analyze_lines scenario DEFAULT_PATTERNS))
  = [(py "ERROR", 2); (py "WARNING", 1)]%nat.
Proof. vm_compute. reflexivity. Qed.

Example scenario_recurring :
  exists w',
    analyze_logs sample_compile None None None false 5
      {| openable := true; unread := scenario; consumed := 0; stdout := [] |}
    = Returned {| total_lines := 4; matched_lines := 4;
                  error_counter := [(py "ERROR disk failed <NUM>", 2);
                                    (py "WARNING retry <NUM>", 1)]%nat |} w'.
Proof. eexists. vm_compute. reflexivity. Qed.

Example scenario_empty :
  analyze_lines [] DEFAULT_PATTERNS = []
  /\ exists w',
       analyze_logs sample_compile None None None false 5
         {| openable := true; unread := []; consumed := 0; stdout := [] |}
       = Returned {| total_lines := 0; matched_lines := 0;
                     error_counter := [] |} w'.
Proof. split; [reflexivity|]. eexists. vm_compute. reflexivity. Qed.

End Scenarios.

(** * Further properties of the code *)

(** * Printing *)

Lemma emits_ret (A : Type) (a : A) : emits [] a (ret a).
Proof. intros [f u c o]. unfold ret. simpl. rewrite app_nil_r. reflexivity. Qed.

Lemma emits_print s : emits [s] tt (print s).
Proof. intros w. reflexivity. Qed.

Lemma emits_bind (A B : Type) (m : M A) (f : A -> M B) o1 o2 a b :
  emits o1 a m -> emits o2 b (f a) -> emits (o1 ++ o2) b (bind m f).
Proof.
  intros Hm Hf w. unfold bind. rewrite Hm, Hf. simpl.
  rewrite app_assoc. reflexivity.
Qed.

Lemma emits_fold (A : Type) (f : A -> str) (l : list A) : forall m o,
  emits o tt m ->
  emits (o ++ map f l) tt
    (fold_left (fun (acc : M unit) (e : A) => bind acc (fun _ => print (f e)))
       l m).
Proof.
  induction l as [|x l IH]; intros m o Hm; simpl.
  - rewrite app_nil_r. exact Hm.
  - replace (o ++ f x :: map f l) with ((o ++ [f x]) ++ map f l)
      by (rewrite <- app_assoc; reflexivity).
    apply IH. apply emits_bind with (a := tt); [exact Hm|apply emits_print].
Qed.


(** * log_analyzer.py: what a run prints and counts *)

Section RunFacts.
Context {U : UnicodeDB}.

Lemma emits_print_summary counter top_n :
  emits (top_header ::
         match counter with
         | [] => [no_recurring]
         | _ => map entry_text (most_common counter top_n)
         end) tt (print_summary counter top_n).
Proof.
  unfold print_summary.
  apply (@emits_bind unit unit _ _ [top_header] _ tt tt); [apply emits_print|].
  destruct counter as [|e c]; [apply emits_print|].
  apply (@emits_fold _ entry_text (most_common (e :: c) top_n) (ret tt) []).
  apply emits_ret.
Qed.

(** Property X2.  [print_summary] prints its header and then either the one
    line that says there is nothing, exactly when the counter is empty, or the
    listed entries:  [min top_n (number of keys)] of them, none when [top_n <=
    0]. *)
Theorem print_summary_lines (counter : dict) (top_n : Z) :
  exists out,
    emits (top_header :: out) tt (print_summary counter top_n)
    /\ length out
       = match counter with
         | [] => 1%nat
         | _ => Nat.min (Z.to_nat top_n) (length counter)
         end
    /\ (In no_recurring out <-> counter = []).
Proof.
  eexists. split; [apply emits_print_summary|].
  destruct counter as [|e c].
  - split; [reflexivity|]. split; [reflexivity|]. intros _. left. reflexivity.
  - split.
    + rewrite length_map. apply most_common_length.
    + split; [|discriminate]. intros H. exfalso.
      apply in_map_iff in H. destruct H as (x & H & _).
      unfold entry_text, no_recurring in H. discriminate.
Qed.

Lemma loop_body_run keyword regex severity l st w :
  loop_body keyword regex severity l st w
  = Returned
      {| total_lines := S (total_lines st);
         matched_lines := (matched_lines st
            + length (filter (fun l => match_line l keyword regex severity) [l]))%nat;
         error_counter := fold_left count_key
            (filter (fun l => match_line l keyword regex severity) [l])
            (error_counter st) |}
      {| openable := openable w; unread := unread w; consumed := consumed w;
         stdout := stdout w
            ++ filter (fun l => match_line l keyword regex severity) [l] |}.
Proof.
  unfold loop_body. simpl. destruct (match_line l keyword regex severity).
  - unfold bind, print, ret, count_key. simpl.
    rewrite Nat.add_1_r.
    destruct (normalize_error l) as [[|c k]|]; reflexivity.
  - unfold ret. simpl. rewrite app_nil_r, Nat.add_0_r. destruct w. reflexivity.
Qed.

Lemma for_lines_run keyword regex severity n : forall st w,
  (length (unread w) <= n)%nat ->
  for_lines n (loop_body keyword regex severity) st w
  = Returned
      {| total_lines := (total_lines st + length (unread w))%nat;
         matched_lines := (matched_lines st
            + length (accepted keyword regex severity (unread w)))%nat;
         error_counter := fold_left count_key
            (accepted keyword regex severity (unread w)) (error_counter st) |}
      {| openable := openable w; unread := [];
         consumed := (consumed w + length (unread w))%nat;
         stdout := stdout w ++ accepted keyword regex severity (unread w) |}.
Proof.
  induction n as [|n IH]; intros st w H.
  - destruct w as [f [|l r] c o]; [|simpl in H; lia].
    destruct st. simpl. unfold ret, accepted. simpl.
    rewrite !Nat.add_0_r, app_nil_r. reflexivity.
  - destruct w as [f [|l r] c o].
    + destruct st. simpl. unfold bind, read_log_lines_next, ret, accepted. simpl.
      rewrite !Nat.add_0_r, app_nil_r. reflexivity.
    + simpl. unfold bind at 1. unfold read_log_lines_next. simpl.
      unfold bind. rewrite loop_body_run. rewrite IH by (simpl in *; lia).
      unfold accepted. simpl.
      destruct (match_line (rstrip_nl l) keyword regex severity); simpl;
        f_equal; try (f_equal; lia);
        rewrite <- ?app_assoc; simpl; f_equal; lia.
Qed.

Lemma analyze_logs_tail (st : Locals) (show_summary : bool) top_n :
  emits ([10 :: py "--- Analysis complete ---";
          py "Total lines processed: " ++ fmt (total_lines st);
          py "Matched lines: " ++ fmt (matched_lines st)]
         ++ (if show_summary
             then top_header ::
                  match error_counter st with
                  | [] => [no_recurring]
                  | c => map entry_text (most_common c top_n)
                  end
             else [])) st
    (bind (print (10 :: py "--- Analysis complete ---")) (fun _ =>
     bind (print (py "Total lines processed: " ++ fmt (total_lines st))) (fun _ =>
     bind (print (py "Matched lines: " ++ fmt (matched_lines st))) (fun _ =>
     bind (if show_summary then print_summary (error_counter st) top_n
           else ret tt) (fun _ => ret st))))).
Proof.
  apply (@emits_bind unit Locals _ _ [_] _ tt st); [apply emits_print|].
  apply (@emits_bind unit Locals _ _ [_] _ tt st); [apply emits_print|].
  apply (@emits_bind unit Locals _ _ [_] _ tt st); [apply emits_print|].
  rewrite <- (app_nil_r (if show_summary then _ else _)).
  apply (@emits_bind unit Locals _ _ _ [] tt st); [|apply emits_ret].
  destruct show_summary; [|apply emits_ret].
  pose proof (emits_print_summary (error_counter st) top_n) as H.
  destruct (error_counter st); exact H.
Qed.

Lemma analyze_logs_after keyword severity (show_summary : bool) top_n r w :
  let acc := accepted keyword r severity (unread w) in
  bind (ret r) (fun regex =>
    let st := {| total_lines := 0; matched_lines := 0; error_counter := [] |} in
    bind (print (py "--- Matching log entries ---")) (fun _ =>
    bind (bind open_file (fun _ (w : World) =>
            for_lines (length (unread w))
              (loop_body keyword regex severity) st w)) (fun st =>
    bind (print (10 :: py "--- Analysis complete ---")) (fun _ =>
    bind (print (py "Total lines processed: " ++ fmt (total_lines st))) (fun _ =>
    bind (print (py "Matched lines: " ++ fmt (matched_lines st))) (fun _ =>
    bind (if show_summary then print_summary (error_counter st) top_n
          else ret tt) (fun _ => ret st))))))) w
  = if openable w then
      Returned
        {| total_lines := length (unread w);
           matched_lines := length acc;
           error_counter := fold_left count_key acc [] |}
        {| openable := true;
           unread := [];
           consumed := (consumed w + length (unread w))%nat;
           stdout := stdout w ++ py "--- Matching log entries ---" :: acc
                     ++ [10 :: py "--- Analysis complete ---";
                         py "Total lines processed: " ++ fmt (length (unread w));
                         py "Matched lines: " ++ fmt (length acc)]
                     ++ (if show_summary
                         then top_header ::
                              match fold_left count_key acc [] with
                              | [] => [no_recurring]
                              | c => map entry_text (most_common c top_n)
                              end
                         else []) |}
    else
      Raised os_error
        {| openable := false; unread := unread w; consumed := consumed w;
           stdout := stdout w ++ [py "--- Matching log entries ---"] |}.
Proof.
  intros acc. unfold bind at 1. unfold ret at 1. unfold bind at 1.
  unfold print at 1. unfold bind at 1. unfold bind at 1. unfold open_file.
  cbv beta. simpl openable. destruct (openable w) eqn:F; [|reflexivity].
  rewrite for_lines_run by (simpl; lia). cbv beta iota.
  rewrite analyze_logs_tail. simpl. fold acc. f_equal. f_equal.
  rewrite <- !app_assoc. reflexivity.
Qed.

Variable re_compile : str -> option Pattern.

(** The whole of a run that returns: the counters and the world at its
    end. *)
Lemma analyze_logs_run keyword regex_pattern severity show_summary top_n w st w' :
  analyze_logs re_compile keyword regex_pattern severity show_summary top_n w
  = Returned st w' ->
  let acc := accepted keyword (regex_of re_compile regex_pattern) severity
               (unread w) in
  st = {| total_lines := length (unread w);
          matched_lines := length acc;
          error_counter := fold_left count_key acc [] |}
  /\ w' = {| openable := true;
             unread := [];
             consumed := (consumed w + length (unread w))%nat;
             stdout := stdout w ++ py "--- Matching log entries ---" :: acc
                       ++ [10 :: py "--- Analysis complete ---";
                           py "Total lines processed: " ++ fmt (length (unread w));
                           py "Matched lines: " ++ fmt (length acc)]
                       ++ (if show_summary
                           then top_header ::
                                match fold_left count_key acc [] with
                                | [] => [no_recurring]
                                | c => map entry_text (most_common c top_n)
                                end
                           else []) |}.
Proof.
  unfold analyze_logs.
  destruct regex_pattern as [[|c p]|]; simpl truthy; cbv iota; simpl regex_of.
  - rewrite analyze_logs_after. destruct (openable w); [|discriminate].
    intros E. injection E as <- <-. auto.
  - destruct (re_compile (c :: p)) as [rx|].
    + rewrite analyze_logs_after. destruct (openable w); [|discriminate].
      intros E. injection E as <- <-. auto.
    + discriminate.
  - rewrite analyze_logs_after. destruct (openable w); [|discriminate].
    intros E. injection E as <- <-. auto.
Qed.


End RunFacts.

Lemma str_eqb_eq a b : str_eqb a b = true <-> a = b.
Proof.
  unfold str_eqb. destruct (list_eq_dec N.eq_dec a b); split; congruence.
Qed.

Lemma str_eqb_refl a : str_eqb a a = true.
Proof. apply str_eqb_eq. reflexivity. Qed.

Section CounterFacts.
Context {U : UnicodeDB}.

Lemma with_key_cons k l ls :
  with_key k (l :: ls)
  = if match normalize_error l with
       | Some k' => str_eqb k' k
       | None => false
       end
    then l :: with_key k ls else with_key k ls.
Proof. reflexivity. Qed.

Lemma count_key_fold ls : forall d,
  NoDup (map fst d) ->
  NoDup (map fst (fold_left count_key ls d))
  /\ (forall k, k <> [] ->
        dict_get (fold_left count_key ls d) k 0
        = (dict_get d k 0 + length (with_key k ls))%nat)
  /\ total_count (fold_left count_key ls d)
     = (total_count d + length (filter keyed ls))%nat
  /\ (forall k, In k (map fst (fold_left count_key ls d)) ->
        In k (map fst d) \/ (k <> [] /\ with_key k ls <> [])).
Proof.
  induction ls as [|l ls IH]; intros d H.
  - unfold with_key. simpl. rewrite Nat.add_0_r. split; [exact H|].
    split; [intros; apply plus_n_O|]. split; [reflexivity|].
    intros k Hk. left. exact Hk.
  - simpl fold_left. simpl filter.
    assert (C : count_key d l
                = match normalize_error l with
                  | Some ((_ :: _) as k) => dict_incr d k
                  | _ => d
                  end) by reflexivity.
    assert (Y : keyed l = match normalize_error l with
                          | Some (_ :: _) => true
                          | _ => false
                          end) by reflexivity.
    rewrite Y, C.
    destruct (normalize_error l) as [[|c k0]|] eqn:E.
    + destruct (IH d H) as (N & G & T & K).
      split; [exact N|]. split; [|split; [exact T|]].
      * intros k Hk. rewrite (G k Hk), with_key_cons, E.
        destruct (str_eqb [] k) eqn:Ek; [|reflexivity].
        apply str_eqb_eq in Ek. congruence.
      * intros k Hk. destruct (K k Hk) as [?|[? ?]]; [auto|right].
        split; [assumption|]. rewrite with_key_cons, E.
        destruct (str_eqb [] k) eqn:Ek; [discriminate|]. assumption.
    + destruct (IH (dict_incr d (c :: k0)) (dict_set_nodup _ _ _ H))
        as (N & G & T & K).
      split; [exact N|]. split; [|split].
      * intros k Hk. rewrite (G k Hk), with_key_cons, E. unfold dict_incr.
        rewrite dict_get_set.
        destruct (str_eqb (c :: k0) k) eqn:Ek; simpl.
        -- apply str_eqb_eq in Ek. subst k. lia.
        -- reflexivity.
      * rewrite T, dict_incr_total. simpl. lia.
      * intros k Hk. rewrite with_key_cons, E.
        destruct (K k Hk) as [Hi|[? ?]].
        -- unfold dict_incr in Hi. apply dict_set_keys in Hi.
           destruct Hi as [->|Hi]; [right|left; exact Hi].
           split; [discriminate|]. rewrite str_eqb_refl. discriminate.
        -- right. split; [assumption|].
           destruct (str_eqb (c :: k0) k); [discriminate|assumption].
    + destruct (IH d H) as (N & G & T & K).
      split; [exact N|]. split; [|split; [exact T|]].
      * intros k Hk. rewrite (G k Hk), with_key_cons, E. reflexivity.
      * intros k Hk. rewrite with_key_cons, E. apply (K k Hk).
Qed.

Variable re_compile : str -> option Pattern.

(** Property X3.  A run that returns has read the whole file and counted each
    of its lines; it has counted as matched the lines that pass the filter,
    and the counts of the recurring errors add up to the number of matched
    lines that have a key, so to no more than the matched lines. *)
Theorem analyze_logs_counts keyword regex_pattern severity show_summary top_n
  w st w' :
  analyze_logs re_compile keyword regex_pattern severity show_summary top_n w
  = Returned st w' ->
  let acc := accepted keyword (regex_of re_compile regex_pattern) severity
               (unread w) in
  unread w' = []
  /\ consumed w' = (consumed w + length (unread w))%nat
  /\ total_lines st = length (unread w)
  /\ matched_lines st = length acc
  /\ total_count (error_counter st) = length (filter keyed acc)
  /\ (total_count (error_counter st) <= matched_lines st <= total_lines st)%nat.
Proof.
  intros E acc. apply analyze_logs_run in E. destruct E as [-> ->]. simpl.
  fold acc.
  destruct (@count_key_fold acc [] (NoDup_nil _)) as (_ & _ & T & _).
  rewrite T. simpl. repeat split; try reflexivity.
  - apply filter_length_le.
  - unfold acc, accepted.
    rewrite <- (length_map rstrip_nl (unread w)). apply filter_length_le.
Qed.

(** Property X4.  A run that returns has printed the opening line, then the
    lines that pass the filter, in the order of the file and without their
    trailing newlines, then the three closing lines with the two counts, and
    then the summary if it was asked for. *)
Theorem analyze_logs_prints keyword regex_pattern severity show_summary top_n
  w st w' :
  analyze_logs re_compile keyword regex_pattern severity show_summary top_n w
  = Returned st w' ->
  let acc := accepted keyword (regex_of re_compile regex_pattern) severity
               (unread w) in
  stdout w'
  = stdout w ++ py "--- Matching log entries ---" :: acc
    ++ [10 :: py "--- Analysis complete ---";
        py "Total lines processed: " ++ fmt (length (unread w));
        py "Matched lines: " ++ fmt (length acc)]
    ++ (if show_summary
        then top_header ::
             match error_counter st with
             | [] => [no_recurring]
             | c => map entry_text (most_common c top_n)
             end
        else []).
Proof.
  intros E acc. apply analyze_logs_run in E. destruct E as [-> ->].
  reflexivity.
Qed.

(** Property X5.  The counter of a run that returns has one entry for each
    key, no empty key, and the entry of a key counts the matched lines that
    normalize to it; a key is there only if some matched line has it. *)
Theorem analyze_logs_counter keyword regex_pattern severity show_summary top_n
  w st w' :
  analyze_logs re_compile keyword regex_pattern severity show_summary top_n w
  = Returned st w' ->
  let acc := accepted keyword (regex_of re_compile regex_pattern) severity
               (unread w) in
  NoDup (map fst (error_counter st))
  /\ (forall k, k <> [] ->
        dict_get (error_counter st) k 0 = length (with_key k acc))
  /\ (forall k, In k (map fst (error_counter st)) ->
        k <> [] /\ exists l, In l acc /\ normalize_error l = Some k).
Proof.
  intros E acc. apply analyze_logs_run in E. destruct E as [-> _]. simpl.
  fold acc.
  destruct (@count_key_fold acc [] (NoDup_nil _)) as (N & G & _ & K).
  split; [exact N|]. split; [exact G|].
  intros k Hk. destruct (K k Hk) as [[]|[Hn Hw]]. split; [exact Hn|].
  unfold with_key in Hw.
  destruct (filter _ acc) as [|l r] eqn:F; [congruence|].
  assert (Hl : In l (filter
            (fun l => match normalize_error l with
                      | Some k' => str_eqb k' k
                      | None => false
                      end) acc)) by (rewrite F; left; reflexivity).
  apply filter_In in Hl. destruct Hl as [Hl Hk'].
  exists l. split; [exact Hl|].
  destruct (normalize_error l) as [k'|]; [|discriminate].
  apply str_eqb_eq in Hk'. congruence.
Qed.

End CounterFacts.

(** * What a key looks like *)

Section Search.
Context {U : UnicodeDB}.
Variable rx : regex.
Variable tok : tokenizer.
Hypothesis tok_match : forall prev s,
  match_here rx false prev s = token_length (tok (prev_word prev) s).

Lemma search_token_free s : forall prev,
  search_from rx prev s = negb (token_free tok (prev_word prev) s).
Proof.
  induction s as [|c t IH]; intros prev; simpl; rewrite tok_match;
    destruct (tok (prev_word prev) _) as [[w r]|]; simpl; try reflexivity.
  apply IH.
Qed.

End Search.

Section KeyShape.
Context {U : UnicodeDB}.

(** Property X6.  In a key [normalize_error] returns, the pattern of the
    hexadecimal literals finds nothing and the pattern of the numbers finds
    nothing; collapsing its white space and stripping it change nothing. *)
Theorem normalize_error_key_shape (l k : str) :
  normalize_error l = Some k ->
  re_search hex_rx k = false
  /\ re_search num_rx k = false
  /\ re_sub ws_rx (py " ") k = k
  /\ strip k = k.
Proof.
  rewrite normalize_error_key.
  destruct (existsb _ trigger_words); [|discriminate].
  intros E. injection E as <-. unfold re_search.
  rewrite (search_token_free hex_rx hex_token hex_match).
  rewrite (search_token_free num_rx num_token num_match).
  rewrite re_sub_ws, strip_trim. unfold masked_key.
  split; [|split; [|split]].
  - apply negb_false_iff.
    apply trim_hex_free, collapse_ws_hex_free, mask_num_hex_free, mask_hex_free.
  - apply negb_false_iff. apply trim_num_free.
    apply (@collapse_ws_num_free _ (length (mask_num (mask_hex l)))); [lia|].
    apply (@mask_num_free _ (length (mask_hex l))). lia.
  - apply collapse_ws_fixed. apply trim_single_spaced.
    apply (@collapse_ws_single _ (length (mask_num (mask_hex l)))). lia.
  - apply trim_idem.
Qed.

End KeyShape.

(** * Lines without their newlines *)

Lemma all_newlines b :
  forallb (fun c => c =? 10) b = true -> b = repeat 10 (length b).
Proof.
  induction b as [|c b IH]; simpl; [reflexivity|].
  intros H. apply andb_true_iff in H. destruct H as [C H].
  apply N.eqb_eq in C. subst c. f_equal. apply IH. exact H.
Qed.

(** Property X7.  [rstrip("\n")] takes the newlines at the end of a line, all
    of them and nothing else: the line is what is left followed by newlines
    only, and what is left does not end with a newline. *)
Theorem rstrip_nl_cuts_newlines (l : str) :
  (exists n, l = rstrip_nl l ++ repeat 10 n)
  /\ (forall a, rstrip_nl l <> a ++ [10])
  /\ rstrip_nl (rstrip_nl l) = rstrip_nl l.
Proof.
  unfold rstrip_nl. split; [|split].
  - destruct (rstrip_cut (fun c => c =? 10) l) as (b & E & B).
    exists (length b). etransitivity; [exact E|]. f_equal.
    apply all_newlines. exact B.
  - intros a H. unfold rstrip_by in H.
    apply (f_equal (@rev char)) in H.
    rewrite rev_involutive, rev_app_distr in H. simpl in H.
    pose proof (dropwhile_head (fun c => c =? 10) (rev l)) as D.
    rewrite H in D. discriminate.
  - apply rstrip_idem.
Qed.

(** * analyze_lines on a log in two parts *)

Section AnalyzerMore.
Variable patterns : list (str * Pattern).

Lemma classify_shift n i l :
  classify (n + i) l patterns = map (shift n) (classify i l patterns).
Proof. unfold classify. rewrite map_map. reflexivity. Qed.

Lemma classify_all_shift n lines : forall i,
  classify_all (n + i) lines patterns
  = map (shift n) (classify_all i lines patterns).
Proof.
  induction lines as [|l rest IH]; intros i; simpl; [reflexivity|].
  rewrite map_app, classify_shift. f_equal.
  rewrite <- IH. f_equal. lia.
Qed.

Lemma classify_all_app a : forall b i,
  classify_all i (a ++ b) patterns
  = classify_all i a patterns ++ classify_all (length a + i) b patterns.
Proof.
  induction a as [|l a IH]; intros b i; simpl; [reflexivity|].
  rewrite IH, <- app_assoc. do 3 f_equal. lia.
Qed.

(** Property X8.  The Matches of a log in two parts are the Matches of the
    first part followed by those of the second, numbered on from the end of
    the first. *)
Theorem analyze_lines_app (a b : list str) :
  analyze_lines (a ++ b) patterns
  = analyze_lines a patterns
    ++ map (shift (length a)) (analyze_lines b patterns).
Proof.
  rewrite !analyze_lines_classify, classify_all_app, classify_all_shift.
  reflexivity.
Qed.

Lemma classify_all_record lines : forall i m,
  In m (classify_all i lines patterns) ->
  exists j l p,
    nth_error lines j = Some l /\ In p patterns /\ search (snd p) l = true
    /\ m = {| line_no := (i + j)%nat; tag := fst p; line := rstrip_nl l |}.
Proof.
  induction lines as [|l0 rest IH]; intros i m H; simpl in H; [contradiction|].
  apply in_app_or in H. destruct H as [H|H].
  - unfold classify in H. apply in_map_iff in H. destruct H as (p & <- & Hp).
    apply filter_In in Hp. destruct Hp as [Hp Hs].
    exists 0%nat, l0, p. rewrite Nat.add_0_r. auto.
  - apply IH in H. destruct H as (j & l & p & Hj & Hp & Hs & ->).
    exists (S j), l, p. simpl. repeat split; try assumption.
    f_equal. lia.
Qed.

Lemma classify_length i l : (length (classify i l patterns) <= length patterns)%nat.
Proof. unfold classify. rewrite length_map. apply filter_length_le. Qed.

Lemma classify_all_length lines : forall i,
  (length (classify_all i lines patterns)
   <= length lines * length patterns)%nat.
Proof.
  induction lines as [|l rest IH]; intros i; simpl; [lia|].
  rewrite length_app. pose proof (classify_length i l).
  specialize (IH (S i)). lia.
Qed.

Lemma map_const (A B : Type) (b : B) (l : list A) :
  map (fun _ => b) l = repeat b (length l).
Proof. induction l as [|x l IH]; simpl; [reflexivity|]. rewrite IH. reflexivity. Qed.

Lemma classify_numbers i l :
  map line_no (classify i l patterns) = repeat i (hits patterns l).
Proof.
  unfold classify, hits. rewrite map_map. simpl. apply map_const.
Qed.

Lemma classify_all_numbers lines : forall i,
  map line_no (classify_all i lines patterns)
  = flat_map (fun e => repeat (fst e) (hits patterns (snd e)))
      (enumerate i lines).
Proof.
  unfold enumerate.
  induction lines as [|l rest IH]; intros i; simpl; [reflexivity|].
  rewrite map_app, classify_numbers, IH. reflexivity.
Qed.

Lemma sorted_app_inv (A : Type) (R : A -> A -> Prop) (a b : list A) :
  StronglySorted R (a ++ b) -> StronglySorted R a /\ StronglySorted R b.
Proof.
  induction a as [|x a IH]; simpl; intros H.
  - split; [constructor|exact H].
  - inversion H as [|? ? H' F]; subst. destruct (IH H') as [Ha Hb].
    split; [|exact Hb]. constructor; [exact Ha|].
    apply Forall_app in F. apply F.
Qed.

Lemma sorted_nth (A : Type) (R : A -> A -> Prop) (l : list A) :
  StronglySorted R l ->
  forall a b x y, (a < b)%nat ->
    nth_error l a = Some x -> nth_error l b = Some y -> R x y.
Proof.
  induction 1 as [|z l Hl IH Hz]; intros a b x y L Ha Hb.
  - destruct a; discriminate.
  - destruct b as [|b]; [lia|]. simpl in Hb. destruct a as [|a]; simpl in Ha.
    + injection Ha as <-. rewrite Forall_forall in Hz. apply Hz.
      apply (nth_error_In _ _ Hb).
    + apply (IH a b); [lia|assumption|assumption].
Qed.

(** The Matches of one line stand in a strict order only if there is at
    most one of them. *)
Lemma classify_strict i l :
  StronglySorted strictly_increasing (classify i l patterns)
  <-> (hits patterns l <= 1)%nat.
Proof.
  unfold hits, classify.
  destruct (filter (fun p => search (snd p) l) patterns) as [|p [|q r]]; simpl.
  - split; [lia|constructor].
  - split; [lia|]. intros _. constructor; constructor.
  - split; [|lia]. intros H. inversion H as [|? ? _ F]; subst.
    inversion F as [|? ? R _]; subst. unfold strictly_increasing in R.
    simpl in R. lia.
Qed.

Lemma classify_all_strict lines : forall i,
  StronglySorted strictly_increasing (classify_all i lines patterns)
  <-> (forall l, In l lines -> (hits patterns l <= 1)%nat).
Proof.
  induction lines as [|l rest IH]; intros i; simpl.
  - split; [intros _ l []|constructor].
  - split.
    + intros H. apply sorted_app_inv in H. destruct H as [Ha Hb].
      intros l0 [<-|Hl].
      * apply (proj1 (classify_strict i l) Ha).
      * apply (proj1 (IH (S i)) Hb l0 Hl).
    + intros H. apply sorted_app.
      * apply classify_strict. apply H. left. reflexivity.
      * apply IH. intros l0 Hl. apply H. right. exact Hl.
      * intros x y Hx Hy. apply classify_line_no in Hx.
        apply classify_all_line_no in Hy. unfold strictly_increasing. lia.
Qed.

(** Claim C2, as the code has it.  In the list [analyze_lines] returns the
    line number never decreases from a Match to a later one, and it grows from
    the Matches of one line to those of every later line: the numbers are 1
    as often as patterns find an occurrence in the first line, then 2 as
    often as they do in the second, and so on, and a Match carries the
    position of its line.  Two Matches share a number only as Matches of the
    same line, so the numbers grow strictly throughout exactly when no line
    has an occurrence of more than one pattern. *)
Theorem analyze_lines_line_no_order (lines : list str) :
  let results := analyze_lines lines patterns in
  StronglySorted non_decreasing results
  /\ map line_no results
     = flat_map (fun e => repeat (fst e) (hits patterns (snd e)))
         (enumerate 1 lines)
  /\ (forall m, In m results ->
        exists j l, nth_error lines j = Some l
                    /\ line_no m = S j /\ line m = rstrip_nl l)
  /\ (forall a b ma mb, (a < b)%nat ->
        nth_error results a = Some ma -> nth_error results b = Some mb ->
        (line_no ma < line_no mb)%nat
        \/ (line_no ma = line_no mb /\ line ma = line mb))
  /\ (StronglySorted strictly_increasing results
      <-> forall l, In l lines -> (hits patterns l <= 1)%nat).
Proof.
  intros results. unfold results. rewrite analyze_lines_classify.
  assert (G : forall m, In m (classify_all 1 lines patterns) ->
            exists j l, nth_error lines j = Some l
                        /\ line_no m = S j /\ line m = rstrip_nl l).
  { intros m H. apply classify_all_record in H.
    destruct H as (j & l & p & Hj & _ & _ & ->). exists j, l. auto. }
  split; [apply classify_all_sorted|].
  split; [apply classify_all_numbers|].
  split; [exact G|].
  split; [|apply classify_all_strict].
  intros a b ma mb L Ha Hb.
  pose proof (sorted_nth (classify_all_sorted patterns lines 1) L Ha Hb) as O.
  unfold non_decreasing in O.
  destruct (Nat.eq_dec (line_no ma) (line_no mb)) as [E|E]; [right|left; lia].
  split; [exact E|].
  destruct (G ma (nth_error_In _ _ Ha)) as (ja & la & Hja & Na & ->).
  destruct (G mb (nth_error_In _ _ Hb)) as (jb & lb & Hjb & Nb & ->).
  assert (ja = jb) by lia. subst jb. congruence.
Qed.

(** Property X9.  Every Match comes from a line of the log and a pattern of
    the set that finds an occurrence in that line: it has the number of the
    line, counted from 1, the tag of the pattern and the text of the line
    without its trailing newlines.  There are no more Matches than lines times
    patterns. *)
Theorem analyze_lines_records (lines : list str) :
  (forall m, In m (analyze_lines lines patterns) ->
     exists j l p,
       nth_error lines j = Some l /\ In p patterns
       /\ search (snd p) l = true
       /\ m = {| line_no := S j; tag := fst p; line := rstrip_nl l |})
  /\ (length (analyze_lines lines patterns)
      <= length lines * length patterns)%nat.
Proof.
  rewrite analyze_lines_classify. split.
  - intros m H. apply classify_all_record in H. exact H.
  - apply classify_all_length.
Qed.

End AnalyzerMore.

(** * The summary of a list in two parts *)

Lemma summary_keys matches : forall out t,
  In t (map fst (fold_left
     (fun out m => dict_set out (tag m) (dict_get out (tag m) 0 + 1)%nat)
     matches out))
  <-> In t (map fst out) \/ In t (map tag matches).
Proof.
  induction matches as [|m ms IH]; intros out t; simpl.
  - tauto.
  - rewrite IH, dict_set_keys. split.
    + intros [[->|H]|H]; auto.
    + intros [H|[->|H]]; auto.
Qed.

(** Property X10.  The summary counts a tag in a list of Matches in two parts
    as often as the summaries of the two parts together, and the tags it lists
    are the tags that occur. *)
Theorem summary_app (a b : list Match) (t : str) :
  dict_get (summary (a ++ b)) t 0
  = (dict_get (summary a) t 0 + dict_get (summary b) t 0)%nat
  /\ (In t (map fst (summary a)) <-> In t (map tag a)).
Proof.
  split.
  - destruct (@summary_from_spec (a ++ b) [] (NoDup_nil _)) as [_ G].
    destruct (@summary_from_spec a [] (NoDup_nil _)) as [_ Ga].
    destruct (@summary_from_spec b [] (NoDup_nil _)) as [_ Gb].
    unfold summary. rewrite (G t), (Ga t), (Gb t). simpl.
    rewrite filter_app, length_app. reflexivity.
  - unfold summary. rewrite summary_keys. simpl. tauto.
Qed.

(** * The order of the tag summary *)

Lemma str_ltb_total a : forall b,
  str_ltb a b = false -> str_ltb b a = false -> a = b.
Proof.
  induction a as [|x a IH]; intros [|y b] H1 H2; simpl in *;
    try reflexivity; try discriminate.
  destruct (N.ltb_spec x y), (N.ltb_spec y x), (N.eqb_spec x y),
    (N.eqb_spec y x); simpl in *; try lia; try discriminate.
  subst. f_equal. apply IH; assumption.
Qed.

Lemma by_count_then_key_antisym a b :
  by_count_then_key a b = false -> by_count_then_key b a = false -> a = b.
Proof.
  unfold by_count_then_key. destruct a as [ka ca], b as [kb cb]. simpl.
  destruct (Nat.ltb_spec cb ca), (Nat.ltb_spec ca cb),
    (Nat.eqb_spec ca cb), (Nat.eqb_spec cb ca);
    simpl; try lia; try discriminate.
  intros H1 H2. subst. f_equal. apply str_ltb_total; assumption.
Qed.

Lemma sorted_unique (A : Type) (R : A -> A -> Prop) (l1 : list A) :
  (forall a b, R a b -> R b a -> a = b) ->
  forall l2, StronglySorted R l1 -> StronglySorted R l2 ->
  Permutation l1 l2 -> l1 = l2.
Proof.
  intros anti. induction l1 as [|x l1 IH]; intros l2 S1 S2 P.
  - apply Permutation_nil in P. congruence.
  - destruct l2 as [|y l2];
      [apply Permutation_sym, Permutation_nil in P; discriminate|].
    inversion S1 as [|? ? S1' F1]; subst.
    inversion S2 as [|? ? S2' F2]; subst.
    rewrite Forall_forall in F1, F2.
    assert (E : x = y).
    { assert (Hx : In x (y :: l2))
        by (apply (Permutation_in _ P); left; reflexivity).
      assert (Hy : In y (x :: l1))
        by (apply (Permutation_in _ (Permutation_sym P)); left; reflexivity).
      destruct Hx as [Hx|Hx]; [congruence|].
      destruct Hy as [Hy|Hy]; [congruence|].
      apply anti; [apply F1; exact Hy|apply F2; exact Hx]. }
    subst y. f_equal. apply IH; try assumption.
    apply (Permutation_cons_inv P).
Qed.

(** Property X11.  The listing of the tag summary does not depend on the order
    in which the dictionary holds its entries: two dictionaries with the same
    entries are listed alike. *)
Theorem summary_order_canonical (s1 s2 : dict) :
  Permutation s1 s2 -> summary_order s1 = summary_order s2.
Proof.
  intros P. unfold summary_order.
  apply (@sorted_unique _ (in_order by_count_then_key)).
  - unfold in_order. intros a b H1 H2.
    apply by_count_then_key_antisym; assumption.
  - apply sorted_sorted;
      [apply by_count_then_key_asym|apply by_count_then_key_trans].
  - apply sorted_sorted;
      [apply by_count_then_key_asym|apply by_count_then_key_trans].
  - rewrite !sorted_perm. exact P.
Qed.

(** * src/log_analyzer/cli.py: what main prints *)



Section Cli.
Context {U : UnicodeDB}.


End Cli.

(** * The default patterns and the case of letters *)

Section Caseless.
Context {U : UnicodeDB}.

Lemma ascii_lower_ascii c : is_ascii (ascii_lower c) = is_ascii c.
Proof.
  unfold is_ascii, ascii_lower, in_range.
  destruct (N.leb_spec 65 c), (N.leb_spec c 90); simpl; try reflexivity.
  destruct (N.ltb_spec (c + 32) 128), (N.ltb_spec c 128); try reflexivity; lia.
Qed.

Lemma ascii_lower_idem c : ascii_lower (ascii_lower c) = ascii_lower c.
Proof.
  unfold ascii_lower, in_range.
  destruct (N.leb_spec 65 c), (N.leb_spec c 90); simpl;
    cmp_cases; simpl; try reflexivity; lia.
Qed.

Lemma ascii_lower_other c : is_ascii c = false -> ascii_lower c = c.
Proof.
  unfold is_ascii, ascii_lower, in_range.
  destruct (N.leb_spec 65 c), (N.leb_spec c 90); simpl; try reflexivity.
  destruct (N.ltb_spec c 128); [discriminate|lia].
Qed.

Lemma isword_lower c : isword (ascii_lower c) = isword c.
Proof.
  unfold isword. rewrite ascii_lower_ascii.
  destruct (is_ascii c) eqn:A; [|rewrite ascii_lower_other by exact A; reflexivity].
  unfold ascii_lower, in_range.
  destruct (N.leb_spec 65 c), (N.leb_spec c 90); simpl;
    cmp_cases; simpl; try reflexivity; exfalso; lia.
Qed.

Lemma ieq_lower a x :
  is_ascii a = true -> ieq a (ascii_lower x) = ieq a x.
Proof.
  intros Ha. unfold ieq. rewrite ascii_lower_ascii, Ha.
  destruct (is_ascii x) eqn:A; simpl.
  - rewrite ascii_lower_idem. reflexivity.
  - rewrite ascii_lower_other by exact A. reflexivity.
Qed.

Lemma at_boundary_lower prev s :
  at_boundary (option_map ascii_lower prev) (map ascii_lower s)
  = at_boundary prev s.
Proof.
  unfold at_boundary. f_equal.
  - destruct prev; simpl; [apply isword_lower|reflexivity].
  - destruct s; simpl; [reflexivity|apply isword_lower].
Qed.

Lemma rmatch_lower r : caseless r = true ->
  forall (k k' : kont),
    (forall p s n, k p s n = k' (option_map ascii_lower p) (map ascii_lower s) n) ->
    forall prev s n,
      rmatch r prev s n k
      = rmatch r (option_map ascii_lower prev) (map ascii_lower s) n k'.
Proof.
  induction r as [c|c|p|p| | |a IHa b IHb|a IHa b IHb]; intros C k k' K prev s n;
    simpl in C; try discriminate.
  - destruct s as [|x t]; simpl; [reflexivity|].
    rewrite ieq_lower by exact C. destruct (ieq c x); [|reflexivity]. apply K.
  - simpl. rewrite at_boundary_lower.
    destruct (at_boundary prev s); [apply K|reflexivity].
  - simpl. apply K.
  - apply andb_true_iff in C. destruct C as [Ca Cb]. simpl.
    apply (IHa Ca). intros p s' n'. apply (IHb Cb). exact K.
  - apply andb_true_iff in C. destruct C as [Ca Cb]. simpl.
    rewrite <- (IHa Ca k k' K), <- (IHb Cb k k' K). reflexivity.
Qed.

Lemma match_here_lower r : caseless r = true ->
  forall prev s,
    match_here r false (option_map ascii_lower prev) (map ascii_lower s)
    = match_here r false prev s.
Proof.
  intros C prev s. unfold match_here. symmetry.
  apply (rmatch_lower r C). reflexivity.
Qed.

Lemma search_from_lower r : caseless r = true ->
  forall s prev,
    search_from r (option_map ascii_lower prev) (map ascii_lower s)
    = search_from r prev s.
Proof.
  intros C s. induction s as [|c t IH]; intros prev.
  - change (search_from r (option_map ascii_lower prev) (map ascii_lower []))
      with (match match_here r false (option_map ascii_lower prev)
                    (map ascii_lower []) with
            | Some _ => true
            | None => false
            end).
    rewrite (match_here_lower r C). reflexivity.
  - change (search_from r (option_map ascii_lower prev)
              (map ascii_lower (c :: t)))
      with (match match_here r false (option_map ascii_lower prev)
                    (map ascii_lower (c :: t)) with
            | Some _ => true
            | None => search_from r (option_map ascii_lower (Some c))
                        (map ascii_lower t)
            end).
    rewrite (match_here_lower r C), IH. reflexivity.
Qed.

Lemma search_lower r : caseless r = true ->
  forall s, re_search r (map ascii_lower s) = re_search r s.
Proof. intros C s. apply (search_from_lower r C s None). Qed.

Lemma classify_all_invariant (f : str -> str) patterns :
  (forall p l, In p patterns -> search (snd p) (f l) = search (snd p) l) ->
  forall lines i,
    map (fun m => (line_no m, tag m)) (classify_all i (map f lines) patterns)
    = map (fun m => (line_no m, tag m)) (classify_all i lines patterns).
Proof.
  intros H lines. induction lines as [|l rest IH]; intros i; simpl;
    [reflexivity|].
  rewrite !map_app, IH. f_equal. unfold classify. rewrite !map_map. simpl.
  f_equal. apply filter_ext_in. intros p Hp. apply H. exact Hp.
Qed.

(** Property X13.  The tags the default patterns find do not depend on the
    case of the ASCII letters of the log: each line gets the same tags as the
    line with its capital letters A to Z made small. *)
Theorem default_patterns_ignore_case (lines : list str) :
  map (fun m => (line_no m, tag m))
    (analyze_lines (map (map ascii_lower) lines) DEFAULT_PATTERNS)
  = map (fun m => (line_no m, tag m)) (analyze_lines lines DEFAULT_PATTERNS).
Proof.
  rewrite !analyze_lines_classify. apply classify_all_invariant.
  intros p l Hp. unfold DEFAULT_PATTERNS in Hp. simpl in Hp.
  destruct Hp as [<-|[<-|[<-|[]]]]; simpl; apply search_lower; reflexivity.
Qed.

End Caseless.

(** * Lines that differ in a number or in a hexadecimal literal *)

Lemma last_app_cons (A : Type) (w : list A) x r d :
  last (w ++ x :: r) d = last (x :: r) d.
Proof.
  induction w as [|y w IH]; [reflexivity|].
  change (last ((y :: w) ++ x :: r) d) with (last (y :: w ++ x :: r) d).
  destruct (w ++ x :: r) eqn:E; [destruct w; discriminate|].
  rewrite <- IH. reflexivity.
Qed.

Section ScanSplit.
Context {U : UnicodeDB}.
Variable tok : tokenizer.
Variable repl : str.
Hypothesis tok_split : forall pw s w rest,
  tok pw s = Some (w, rest) -> w <> [] /\ s = w ++ rest.

Lemma word_before_app pw w r :
  w <> [] -> word_before (isword (last w 0)) r = word_before pw (w ++ r).
Proof.
  intros Hw. destruct r as [|x r].
  - rewrite app_nil_r. destruct w; [congruence|reflexivity].
  - destruct w as [|y w]; [congruence|]. simpl word_before at 1.
    change (word_before pw ((y :: w) ++ x :: r))
      with (isword (last ((y :: w) ++ x :: r) 0)).
    rewrite last_app_cons. reflexivity.
Qed.

Lemma local_at_suffix a1 a2 b :
  local_at tok (a1 ++ a2) b -> local_at tok a2 b.
Proof.
  intros H x y q E Hy. apply (H (a1 ++ x) y q); [|exact Hy].
  rewrite E. apply app_assoc.
Qed.

(** Where the tokens of [a] do not depend on what follows, the scan of
    [a ++ b] is the scan of [a] followed by the scan of [b]. *)
Lemma replace_tokens_app n : forall a b pw,
  (length a <= n)%nat -> local_at tok a b ->
  replace_tokens tok repl pw (a ++ b)
  = replace_tokens tok repl pw a
    ++ replace_tokens tok repl (word_before pw a) b.
Proof.
  induction n as [|n IH]; intros a b pw Hn L.
  - destruct a; [reflexivity|simpl in Hn; lia].
  - destruct a as [|c t]; [reflexivity|].
    change ((c :: t) ++ b) with (c :: t ++ b).
    rewrite !(replace_tokens_cons tok repl tok_split).
    change (c :: t ++ b) with ((c :: t) ++ b).
    rewrite (L [] (c :: t) pw eq_refl) by discriminate.
    destruct (tok pw (c :: t)) as [[w r]|] eqn:E.
    + pose proof E as E2. apply tok_split in E2. destruct E2 as [Hw Hs].
      rewrite IH.
      * rewrite <- app_assoc. do 2 f_equal. rewrite Hs.
        f_equal. apply word_before_app. exact Hw.
      * apply (f_equal (@length char)) in Hs. rewrite length_app in Hs.
        destruct w; [congruence|]. simpl in Hs, Hn. lia.
      * apply (@local_at_suffix w r b). rewrite <- Hs. exact L.
    + simpl. f_equal. rewrite IH.
      * f_equal. destruct t; reflexivity.
      * simpl in Hn. lia.
      * apply (@local_at_suffix [c] t b). exact L.
Qed.

End ScanSplit.

Lemma span_app_last (p : char -> bool) t : forall b,
  t <> [] -> p (last t 0) = false ->
  takewhile p (t ++ b) = takewhile p t
  /\ dropwhile p (t ++ b) = dropwhile p t ++ b
  /\ dropwhile p t <> [].
Proof.
  induction t as [|c t IH]; intros b Ht Hl; [congruence|].
  simpl. destruct (p c) eqn:E.
  - destruct t as [|e t]; [simpl in Hl; congruence|].
    destruct (IH b) as (H1 & H2 & H3); [discriminate|exact Hl|].
    rewrite H1. auto.
  - repeat split. discriminate.
Qed.

Lemma span_app_head (p : char -> bool) t : forall b,
  match b with c :: _ => p c = false | [] => True end ->
  takewhile p (t ++ b) = takewhile p t
  /\ dropwhile p (t ++ b) = dropwhile p t ++ b.
Proof.
  induction t as [|c t IH]; intros b Hb.
  - simpl. destruct b as [|x b]; [auto|]. simpl. rewrite Hb. auto.
  - simpl. destruct (p c); [|auto].
    destruct (IH b Hb) as [H1 H2]. rewrite H1. auto.
Qed.

Lemma span_all (p : char -> bool) d : forall b,
  forallb p d = true ->
  match b with c :: _ => p c = false | [] => True end ->
  takewhile p (d ++ b) = d /\ dropwhile p (d ++ b) = b.
Proof.
  induction d as [|c d IH]; intros b Hd Hb.
  - simpl. destruct b as [|x b]; [auto|]. simpl. rewrite Hb. auto.
  - simpl in *. apply andb_true_iff in Hd. destruct Hd as [Hc Hd].
    rewrite Hc. destruct (IH b Hd Hb) as [H1 H2]. rewrite H1. auto.
Qed.

Section Locality.
Context {U : UnicodeDB}.

Lemma hexdigit_word c : is_hexdigit c = true -> isword c = true.
Proof.
  unfold is_hexdigit, isword, is_ascii, in_range.
  cmp_cases; simpl; try reflexivity; try discriminate; exfalso; lia.
Qed.

Lemma not_word_not_hexdigit c : isword c = false -> is_hexdigit c = false.
Proof.
  intros H. destruct (is_hexdigit c) eqn:E; [|reflexivity].
  apply hexdigit_word in E. congruence.
Qed.

Lemma not_word_not_digit c : isword c = false -> isdigit c = false.
Proof.
  intros H. destruct (isdigit c) eqn:E; [|reflexivity].
  apply digit_word in E. congruence.
Qed.

Lemma not_word_neq c x : isword c = false -> isword x = true -> (c =? x) = false.
Proof. intros H1 H2. apply N.eqb_neq. congruence. Qed.

Lemma word_before_suffix pw a1 a2 :
  a2 <> [] -> word_before pw (a1 ++ a2) = word_before pw a2.
Proof.
  intros H. destruct a2 as [|x r]; [congruence|].
  destruct a1 as [|y a1]; [reflexivity|].
  change (word_before pw ((y :: a1) ++ x :: r))
    with (isword (last ((y :: a1) ++ x :: r) 0)).
  rewrite last_app_cons. reflexivity.
Qed.

Lemma hex_token_three q x y h t :
  hex_token q (x :: y :: h :: t)
  = if (x =? 48) && (y =? 120) && is_hexdigit h
    then Some (x :: y :: h :: takewhile is_hexdigit t, dropwhile is_hexdigit t)
    else None.
Proof. reflexivity. Qed.

Lemma num_token_cons q d t :
  num_token q (d :: t)
  = if negb q && isdigit d && negb (head_word (dropwhile isdigit t))
    then Some (d :: takewhile isdigit t, dropwhile isdigit t)
    else None.
Proof. reflexivity. Qed.

Lemma hex_local_end a b :
  word_before false a = false -> local_at hex_token a b.
Proof.
  intros W a1 a2 q -> H. rewrite word_before_suffix in W by exact H.
  destruct a2 as [|x [|y [|h t]]]; [congruence| | |].
  - simpl in W. unfold hex_token.
    destruct b as [|b0 [|b1 b]]; simpl; try reflexivity.
    rewrite (not_word_neq x 48 W eq_refl). reflexivity.
  - simpl in W. unfold hex_token.
    destruct b as [|b0 b]; simpl; try reflexivity.
    rewrite (not_word_neq y 120 W eq_refl), andb_false_r. reflexivity.
  - change ((x :: y :: h :: t) ++ b) with (x :: y :: h :: (t ++ b)).
    rewrite !hex_token_three.
    destruct ((x =? 48) && (y =? 120) && is_hexdigit h) eqn:C;
      [|reflexivity].
    apply andb_true_iff in C. destruct C as [_ Hh].
    destruct t as [|e t].
    + simpl in W. apply hexdigit_word in Hh. congruence.
    + destruct (@span_app_last is_hexdigit (e :: t) b) as (H1 & H2 & _).
      * discriminate.
      * apply not_word_not_hexdigit. exact W.
      * apply f_equal. apply f_equal2; [|exact H2].
        do 3 apply f_equal. exact H1.
Qed.

Lemma hex_local_head a b : head_word b = false -> local_at hex_token a b.
Proof.
  intros W a1 a2 q _ H.
  assert (Hb : match b with c :: _ => is_hexdigit c = false | [] => True end).
  { destruct b; [exact I|]. apply not_word_not_hexdigit. exact W. }
  destruct a2 as [|x [|y [|h t]]]; [congruence| | |].
  - unfold hex_token.
    destruct b as [|b0 [|b1 b]]; simpl; try reflexivity.
    simpl in W. rewrite (not_word_neq b0 120 W eq_refl), andb_false_r.
    reflexivity.
  - unfold hex_token. destruct b as [|b0 b]; simpl; try reflexivity.
    rewrite Hb, andb_false_r. reflexivity.
  - change ((x :: y :: h :: t) ++ b) with (x :: y :: h :: (t ++ b)).
    rewrite !hex_token_three.
    destruct (@span_app_head is_hexdigit t b Hb) as [H1 H2].
    destruct ((x =? 48) && (y =? 120) && is_hexdigit h); [|reflexivity].
    apply f_equal. apply f_equal2; [|exact H2].
    do 3 apply f_equal. exact H1.
Qed.

Lemma num_local_end a b :
  word_before false a = false -> local_at num_token a b.
Proof.
  intros W a1 a2 q -> H. rewrite word_before_suffix in W by exact H.
  destruct a2 as [|d t]; [congruence|].
  change ((d :: t) ++ b) with (d :: (t ++ b)). rewrite !num_token_cons.
  destruct (isdigit d) eqn:D; [|rewrite !andb_false_r; reflexivity].
  destruct t as [|e t].
  - simpl in W. apply digit_word in D. congruence.
  - destruct (@span_app_last isdigit (e :: t) b) as (H1 & H2 & H3).
    + discriminate.
    + apply not_word_not_digit. exact W.
    + assert (E1 : takewhile isdigit (e :: t ++ b)
                   = takewhile isdigit (e :: t)) by exact H1.
      assert (E2 : dropwhile isdigit (e :: t ++ b)
                   = dropwhile isdigit (e :: t) ++ b) by exact H2.
      change ((e :: t) ++ b) with (e :: t ++ b). rewrite E1, E2.
      destruct (dropwhile isdigit (e :: t)) as [|z r]; [congruence|].
      change (head_word ((z :: r) ++ b)) with (head_word (z :: r)).
      destruct (negb q && true && negb (head_word (z :: r))); reflexivity.
Qed.

End Locality.

Section ScanEnds.
Context {U : UnicodeDB}.
Variable tok : tokenizer.
Variable repl : str.
Hypothesis tok_split : forall pw s w rest,
  tok pw s = Some (w, rest) -> w <> [] /\ s = w ++ rest.
Hypothesis repl_end : repl <> [] /\ isword (last repl 0) = false.

Lemma replace_tokens_empty pw s : replace_tokens tok repl pw s = [] -> s = [].
Proof.
  destruct s as [|c t]; [reflexivity|].
  rewrite (replace_tokens_cons tok repl tok_split).
  destruct (tok pw (c :: t)) as [[w r]|]; [|discriminate].
  destruct repl_end as [R _]. destruct repl; [congruence|discriminate].
Qed.

Lemma word_before_repl X :
  word_before false X = false -> word_before false (repl ++ X) = false.
Proof.
  destruct repl_end as [R E]. destruct X as [|x X].
  - rewrite app_nil_r. intros _. destruct repl; [congruence|exact E].
  - intros H. destruct repl as [|y r]; [congruence|].
    change (word_before false ((y :: r) ++ x :: X))
      with (isword (last ((y :: r) ++ x :: X) 0)).
    rewrite last_app_cons. exact H.
Qed.

(** A scan that writes a placeholder ending in a character that is not a
    word character keeps the end of the text free of word characters. *)
Lemma replace_tokens_end n : forall s pw,
  (length s <= n)%nat -> word_before false s = false ->
  word_before false (replace_tokens tok repl pw s) = false.
Proof.
  induction n as [|n IH]; intros s pw Hn W.
  - destruct s; [reflexivity|simpl in Hn; lia].
  - destruct s as [|c t]; [reflexivity|].
    rewrite (replace_tokens_cons tok repl tok_split).
    destruct (tok pw (c :: t)) as [[w r]|] eqn:E.
    + pose proof E as E2. apply tok_split in E2. destruct E2 as [Hw Hs].
      apply word_before_repl. apply IH.
      * apply (f_equal (@length char)) in Hs. rewrite length_app in Hs.
        destruct w; [congruence|]. simpl in Hs, Hn. lia.
      * destruct r as [|x r]; [reflexivity|].
        rewrite Hs, word_before_suffix in W by discriminate. exact W.
    + destruct t as [|e t]; [exact W|].
      assert (W' : word_before false (e :: t) = false).
      { change (c :: e :: t) with ([c] ++ e :: t) in W.
        rewrite word_before_suffix in W by discriminate. exact W. }
      specialize (IH (e :: t) (isword c)).
      destruct (replace_tokens tok repl (isword c) (e :: t)) as [|x X] eqn:F.
      * apply replace_tokens_empty in F. discriminate.
      * change (word_before false (c :: x :: X))
          with (word_before false (x :: X)).
        apply IH; [simpl in Hn |- *; lia|exact W'].
Qed.

Hypothesis tok_blind : forall q q' s, tok q s = tok q' s.

Lemma replace_tokens_blind n : forall s pw pw', (length s <= n)%nat ->
  replace_tokens tok repl pw s = replace_tokens tok repl pw' s.
Proof.
  induction n as [|n IH]; intros s pw pw' Hn.
  - destruct s; [reflexivity|simpl in Hn; lia].
  - destruct s as [|c t]; [reflexivity|].
    rewrite !(replace_tokens_cons tok repl tok_split).
    rewrite (tok_blind pw pw'). reflexivity.
Qed.

End ScanEnds.

Section KeyOfVariants.
Context {U : UnicodeDB}.

Lemma mask_hex_any_context pw s :
  replace_tokens hex_token (py "<HEX>") pw s = mask_hex s.
Proof.
  apply (@replace_tokens_blind _ hex_token (py "<HEX>") hex_token_split
           (fun _ _ _ => eq_refl) (length s)). lia.
Qed.

Lemma mask_hex_end s :
  word_before false s = false -> word_before false (mask_hex s) = false.
Proof.
  apply (@replace_tokens_end _ hex_token (py "<HEX>") hex_token_split)
    with (n := length s); [|lia].
  split; [discriminate|reflexivity].
Qed.

Lemma mask_hex_head s : head_word s = false -> head_word (mask_hex s) = false.
Proof.
  destruct s as [|c t]; [reflexivity|]. simpl. intros W.
  unfold mask_hex. rewrite (replace_tokens_cons hex_token (py "<HEX>") hex_token_split).
  rewrite hex_token_head; [exact W|].
  intros ->. discriminate.
Qed.

Lemma digits_hex_free d : forall pw,
  forallb isdigit d = true -> token_free hex_token pw d = true.
Proof.
  induction d as [|c d IH]; intros pw H; [reflexivity|].
  simpl in H. apply andb_true_iff in H. destruct H as [_ H].
  apply token_free_intro; [|apply IH; exact H].
  destruct d as [|y d]; [reflexivity|].
  destruct d as [|h d]; [reflexivity|]. rewrite hex_token_three.
  simpl in H. apply andb_true_iff in H. destruct H as [Hy _].
  destruct (N.eqb_spec y 120) as [->|]; [discriminate|].
  rewrite andb_false_r. reflexivity.
Qed.

Lemma word_before_digits pw d :
  d <> [] -> forallb isdigit d = true -> word_before pw d = true.
Proof.
  intros Hd H. destruct d as [|c d]; [congruence|].
  change (word_before pw (c :: d)) with (isword (last (c :: d) 0)).
  apply digit_word. rewrite forallb_forall in H. apply H.
  rewrite (@app_removelast_last _ (c :: d) 0) at 2 by discriminate.
  apply in_or_app. right. left. reflexivity.
Qed.

(** The text behind the two masks for a line with a number between two
    parts: the number has become <NUM>, whatever its digits. *)
Lemma mask_number pre d suf :
  word_before false pre = false -> head_word suf = false ->
  d <> [] -> forallb isdigit d = true ->
  mask_num (mask_hex (pre ++ d ++ suf))
  = mask_num (mask_hex pre) ++ py "<NUM>"
    ++ replace_tokens num_token (py "<NUM>") true (mask_hex suf).
Proof.
  intros Wp Ws Hd Dd.
  assert (H1 : mask_hex (pre ++ d ++ suf) = mask_hex pre ++ d ++ mask_hex suf).
  { unfold mask_hex at 1.
    rewrite (@replace_tokens_app _ hex_token (py "<HEX>") hex_token_split
               (length pre)) by (try lia; apply hex_local_end; exact Wp).
    fold (mask_hex pre). f_equal.
    rewrite (@replace_tokens_app _ hex_token (py "<HEX>") hex_token_split
               (length d)) by (try lia; apply hex_local_head; exact Ws).
    rewrite !mask_hex_any_context. f_equal.
    apply (replace_token_free hex_token (py "<HEX>") hex_token_split).
    apply digits_hex_free. exact Dd. }
  rewrite H1. unfold mask_num at 1.
  rewrite (@replace_tokens_app _ num_token (py "<NUM>") num_token_split
             (length (mask_hex pre)))
    by (try lia; apply num_local_end; apply mask_hex_end; exact Wp).
  fold (mask_num (mask_hex pre)). f_equal.
  rewrite (mask_hex_end _ Wp).
  pose proof (mask_hex_head _ Ws) as Wb.
  assert (Hb : match mask_hex suf with
               | c :: _ => isdigit c = false
               | [] => True
               end).
  { destruct (mask_hex suf); [exact I|]. apply not_word_not_digit. exact Wb. }
  destruct d as [|d0 d']; [congruence|].
  change ((d0 :: d') ++ mask_hex suf) with (d0 :: d' ++ mask_hex suf).
  rewrite (replace_tokens_cons num_token (py "<NUM>") num_token_split).
  rewrite num_token_cons.
  simpl in Dd. apply andb_true_iff in Dd. destruct Dd as [D0 Dd].
  destruct (@span_all isdigit d' (mask_hex suf) Dd Hb) as [T1 T2].
  assert (E1 : takewhile isdigit (d' ++ mask_hex suf) = d') by exact T1.
  assert (E2 : dropwhile isdigit (d' ++ mask_hex suf) = mask_hex suf)
    by exact T2.
  rewrite E1, E2, D0, Wb. simpl negb. cbv iota. simpl andb. cbv iota.
  do 2 f_equal.
  apply (@word_before_digits false (d0 :: d')); [discriminate|].
  simpl. rewrite D0. exact Dd.
Qed.

(** Property X14.  Two lines that differ only in a number, standing between
    characters that are not word characters, have the same key when both have
    one. *)
Theorem normalize_error_numbers (pre suf d1 d2 k1 k2 : str) :
  word_before false pre = false -> head_word suf = false ->
  d1 <> [] -> forallb isdigit d1 = true ->
  d2 <> [] -> forallb isdigit d2 = true ->
  normalize_error (pre ++ d1 ++ suf) = Some k1 ->
  normalize_error (pre ++ d2 ++ suf) = Some k2 ->
  k1 = k2.
Proof.
  intros Wp Ws H1 D1 H2 D2. rewrite !normalize_error_key.
  destruct (existsb _ trigger_words); [|discriminate].
  destruct (existsb _ trigger_words); [|discriminate].
  intros E1 E2. injection E1 as <-. injection E2 as <-.
  unfold masked_key. rewrite !mask_number by assumption. reflexivity.
Qed.

Lemma mask_hex_literal pre h suf :
  word_before false pre = false ->
  h <> [] -> forallb is_hexdigit h = true ->
  match suf with c :: _ => is_hexdigit c = false | [] => True end ->
  mask_hex (pre ++ 48 :: 120 :: h ++ suf)
  = mask_hex pre ++ py "<HEX>" ++ mask_hex suf.
Proof.
  intros Wp Hh Dh Hs. unfold mask_hex at 1.
  rewrite (@replace_tokens_app _ hex_token (py "<HEX>") hex_token_split
             (length pre)) by (try lia; apply hex_local_end; exact Wp).
  fold (mask_hex pre). f_equal.
  destruct h as [|h0 h']; [congruence|].
  change (48 :: 120 :: (h0 :: h') ++ suf) with (48 :: 120 :: h0 :: h' ++ suf).
  rewrite (replace_tokens_cons hex_token (py "<HEX>") hex_token_split).
  rewrite hex_token_three.
  simpl in Dh. apply andb_true_iff in Dh. destruct Dh as [D0 Dh].
  destruct (@span_all is_hexdigit h' suf Dh Hs) as [T1 T2].
  assert (E2 : dropwhile is_hexdigit (h' ++ suf) = suf) by exact T2.
  rewrite E2, D0. simpl andb. cbv iota. f_equal.
  apply mask_hex_any_context.
Qed.

(** Property X15.  Two lines that differ only in the digits of a hexadecimal
    literal, which starts behind a character that is not a word character,
    have the same key when both have one. *)
Theorem normalize_error_hex_literals (pre suf h1 h2 k1 k2 : str) :
  word_before false pre = false ->
  match suf with c :: _ => is_hexdigit c = false | [] => True end ->
  h1 <> [] -> forallb is_hexdigit h1 = true ->
  h2 <> [] -> forallb is_hexdigit h2 = true ->
  normalize_error (pre ++ py "0x" ++ h1 ++ suf) = Some k1 ->
  normalize_error (pre ++ py "0x" ++ h2 ++ suf) = Some k2 ->
  k1 = k2.
Proof.
  intros Wp Ws H1 D1 H2 D2. rewrite !normalize_error_key.
  destruct (existsb _ trigger_words); [|discriminate].
  destruct (existsb _ trigger_words); [|discriminate].
  intros E1 E2. injection E1 as <-. injection E2 as <-.
  unfold masked_key.
  change (py "0x" ++ ?h ++ suf) with (48 :: 120 :: h ++ suf).
  rewrite !mask_hex_literal by assumption. reflexivity.
Qed.

End KeyOfVariants.

(** * The properties above at concrete inputs *)

Lemma sample_run :
  analyze_logs (U := ascii_only) sample_compile None None None true 5
    sample_world
  = Returned (fst sample_end) (snd sample_end).
Proof. vm_compute. reflexivity. Qed.

(** The counts of the run on the file "warning b", "error a". *)
Lemma analyze_logs_counts_witness :
  analyze_logs (U := ascii_only) sample_compile None None None true 5
    sample_world
  = Returned (fst sample_end) (snd sample_end)
  /\ unread (snd sample_end) = []
  /\ total_lines (fst sample_end) = 2%nat
  /\ (total_count (error_counter (fst sample_end))
      <= matched_lines (fst sample_end) <= total_lines (fst sample_end))%nat.
Proof.
  split; [exact sample_run|].
  destruct (@analyze_logs_counts ascii_only sample_compile None None None
              true 5 sample_world _ _ sample_run)
    as (H1 & _ & H3 & _ & _ & H6).
  split; [exact H1|]. split; [exact H3|exact H6].
Defined.

(** What the run on the file "warning b", "error a" has printed. *)
Lemma analyze_logs_prints_witness :
  analyze_logs (U := ascii_only) sample_compile None None None true 5
    sample_world
  = Returned (fst sample_end) (snd sample_end)
  /\ stdout (snd sample_end)
     = [py "--- Matching log entries ---"; py "warning b"; py "error a";
        10 :: py "--- Analysis complete ---";
        py "Total lines processed: 2"; py "Matched lines: 2";
        top_header; py "[1x] warning b"; py "[1x] error a"].
Proof.
  split; [exact sample_run|].
  rewrite (@analyze_logs_prints ascii_only sample_compile None None None
             true 5 sample_world _ _ sample_run).
  vm_compute. reflexivity.
Defined.

(** The counter of the run on the file "warning b", "error a". *)
Lemma analyze_logs_counter_witness :
  analyze_logs (U := ascii_only) sample_compile None None None true 5
    sample_world
  = Returned (fst sample_end) (snd sample_end)
  /\ NoDup (map fst (error_counter (fst sample_end)))
  /\ dict_get (error_counter (fst sample_end)) (py "error a") 0 = 1%nat.
Proof.
  split; [exact sample_run|].
  destruct (@analyze_logs_counter ascii_only sample_compile None None None
              true 5 sample_world _ _ sample_run) as (H1 & H2 & _).
  split; [exact H1|].
  rewrite (H2 (py "error a")) by discriminate. vm_compute. reflexivity.
Defined.


(** The key of "error 0x1F at line 42". *)
Lemma normalize_error_key_shape_witness :
  normalize_error (U := ascii_only) (py "error 0x1F at line 42")
  = Some (py "error <HEX> at line <NUM>")
  /\ re_search (U := ascii_only) hex_rx (py "error <HEX> at line <NUM>") = false
  /\ re_search (U := ascii_only) num_rx (py "error <HEX> at line <NUM>") = false
  /\ re_sub (U := ascii_only) ws_rx (py " ") (py "error <HEX> at line <NUM>")
     = py "error <HEX> at line <NUM>"
  /\ strip (U := ascii_only) (py "error <HEX> at line <NUM>")
     = py "error <HEX> at line <NUM>".
Proof.
  assert (E : normalize_error (U := ascii_only) (py "error 0x1F at line 42")
              = Some (py "error <HEX> at line <NUM>"))
    by (vm_compute; reflexivity).
  split; [exact E|].
  exact (@normalize_error_key_shape ascii_only _ _ E).
Defined.

(** "disk failed 404 times" and "disk failed 500 times". *)
Lemma normalize_error_numbers_witness :
  normalize_error (U := ascii_only) (py "disk failed 404 times")
  = Some (py "disk failed <NUM> times")
  /\ normalize_error (U := ascii_only) (py "disk failed 500 times")
     = Some (py "disk failed <NUM> times")
  /\ py "disk failed <NUM> times" = py "disk failed <NUM> times".
Proof.
  assert (E1 : normalize_error (U := ascii_only)
                 (py "disk failed " ++ py "404" ++ py " times")
               = Some (py "disk failed <NUM> times"))
    by (vm_compute; reflexivity).
  assert (E2 : normalize_error (U := ascii_only)
                 (py "disk failed " ++ py "500" ++ py " times")
               = Some (py "disk failed <NUM> times"))
    by (vm_compute; reflexivity).
  split; [exact E1|]. split; [exact E2|].
  apply (@normalize_error_numbers ascii_only (py "disk failed ") (py " times")
           (py "404") (py "500") _ _); try reflexivity; try discriminate;
    assumption.
Defined.

(** "error at 0x1F here" and "error at 0xBEEF here". *)
Lemma normalize_error_hex_literals_witness :
  normalize_error (U := ascii_only) (py "error at 0x1F here")
  = Some (py "error at <HEX> here")
  /\ normalize_error (U := ascii_only) (py "error at 0xBEEF here")
     = Some (py "error at <HEX> here")
  /\ py "error at <HEX> here" = py "error at <HEX> here".
Proof.
  assert (E1 : normalize_error (U := ascii_only)
                 (py "error at " ++ py "0x" ++ py "1F" ++ py " here")
               = Some (py "error at <HEX> here"))
    by (vm_compute; reflexivity).
  assert (E2 : normalize_error (U := ascii_only)
                 (py "error at " ++ py "0x" ++ py "BEEF" ++ py " here")
               = Some (py "error at <HEX> here"))
    by (vm_compute; reflexivity).
  split; [exact E1|]. split; [exact E2|].
  apply (@normalize_error_hex_literals ascii_only (py "error at ") (py " here")
           (py "1F") (py "BEEF") _ _); try reflexivity; try discriminate;
    assumption.
Defined.


(** The summary ERROR 2, WARNING 1 held in either order. *)
Lemma summary_order_canonical_witness :
  Permutation [(py "WARNING", 1%nat); (py "ERROR", 2%nat)]
              [(py "ERROR", 2%nat); (py "WARNING", 1%nat)]
  /\ summary_order [(py "WARNING", 1%nat); (py "ERROR", 2%nat)]
     = summary_order [(py "ERROR", 2%nat); (py "WARNING", 1%nat)].
Proof.
  assert (P : Permutation [(py "WARNING", 1%nat); (py "ERROR", 2%nat)]
                          [(py "ERROR", 2%nat); (py "WARNING", 1%nat)])
    by apply perm_swap.
  split; [exact P|]. apply (summary_order_canonical P).
Defined.

(** * The key of a line of ASCII text is not empty *)

Section NonEmptyKey.
Context {U : UnicodeDB}.

Lemma lower_from_ascii s : forall before,
  forallb is_ascii s = true -> lower_from before s = map ascii_lower s.
Proof.
  induction s as [|c t IH]; intros before H; [reflexivity|].
  simpl in *. apply andb_true_iff in H. destruct H as [Hc Ht].
  rewrite Hc, IH by exact Ht. reflexivity.
Qed.

Lemma letter_not_space c :
  in_range 97 122 (ascii_lower c) = true -> isspace c = false.
Proof.
  unfold ascii_lower, isspace, is_ascii, in_range.
  destruct (N.leb_spec 65 c), (N.leb_spec c 90); simpl;
    cmp_cases; simpl; try reflexivity; try discriminate; exfalso; lia.
Qed.

Lemma nonspace_intro c s : In c s -> isspace c = false -> nonspace s = true.
Proof.
  intros Hc Hs. unfold nonspace. apply existsb_exists. exists c.
  rewrite Hs. auto.
Qed.

Lemma triggered_nonspace l :
  forallb is_ascii l = true ->
  existsb (fun word => str_in word (lower l)) trigger_words = true ->
  nonspace l = true.
Proof.
  intros A T. apply existsb_exists in T. destruct T as (w & Hw & T).
  unfold lower in T. rewrite lower_from_ascii in T by exact A.
  apply str_in_spec in T. destruct T as (pre & suf & E).
  assert (F : exists x w', w = x :: w' /\ in_range 97 122 x = true).
  { simpl in Hw. destruct Hw as [<-|[<-|[<-|[<-|[]]]]];
      eexists; eexists; split; reflexivity. }
  destruct F as (x & w' & -> & Hx).
  assert (I : In x (map ascii_lower l)).
  { rewrite E. apply in_or_app. right. left. reflexivity. }
  apply in_map_iff in I. destruct I as (c & Hc & I).
  apply (nonspace_intro c l I). apply letter_not_space.
  rewrite Hc. exact Hx.
Qed.

Lemma nonspace_app a b : nonspace (a ++ b) = nonspace a || nonspace b.
Proof. apply existsb_app. Qed.

Lemma nonspace_cons c s : nonspace (c :: s) = negb (isspace c) || nonspace s.
Proof. reflexivity. Qed.

Section Scan.
Variable tok : tokenizer.
Variable repl : str.
Hypothesis tok_split : forall pw s w rest,
  tok pw s = Some (w, rest) -> w <> [] /\ s = w ++ rest.
Hypothesis tok_seen : forall pw s w rest,
  tok pw s = Some (w, rest) -> nonspace w = true -> nonspace repl = true.

Lemma replace_tokens_nonspace n : forall s pw,
  (length s <= n)%nat -> nonspace s = true ->
  nonspace (replace_tokens tok repl pw s) = true.
Proof.
  induction n as [|n IH]; intros s pw Hn H.
  - destruct s; [discriminate|simpl in Hn; lia].
  - destruct s as [|c t]; [discriminate|].
    rewrite (replace_tokens_cons tok repl tok_split).
    destruct (tok pw (c :: t)) as [[w r]|] eqn:E.
    + pose proof E as E2. apply tok_split in E2. destruct E2 as [Hw Hs].
      rewrite nonspace_app. rewrite Hs, nonspace_app in H.
      apply orb_true_iff in H. apply orb_true_iff. destruct H as [H|H].
      * left. apply (tok_seen E H).
      * right. apply IH; [|exact H].
        apply (f_equal (@length char)) in Hs. rewrite length_app in Hs.
        destruct w; [congruence|]. simpl in Hs, Hn. lia.
    + rewrite nonspace_cons in *.
      apply orb_true_iff in H. apply orb_true_iff. destruct H as [H|H].
      * left. exact H.
      * right. apply IH; [simpl in Hn; lia|exact H].
Qed.

End Scan.

Lemma spaces_not_nonspace w : forallb isspace w = true -> nonspace w = false.
Proof.
  induction w as [|c w IH]; [reflexivity|]. simpl. intros H.
  apply andb_true_iff in H. destruct H as [Hc H].
  unfold nonspace in *. simpl. rewrite Hc, IH by exact H. reflexivity.
Qed.

Lemma dropwhile_nonspace s :
  nonspace s = true -> nonspace (dropwhile isspace s) = true.
Proof.
  induction s as [|c t IH]; intros H; [discriminate|]. simpl.
  destruct (isspace c) eqn:S; [|exact H].
  apply IH. unfold nonspace in *. simpl in H. rewrite S in H. exact H.
Qed.

Lemma nonspace_rev s : nonspace (rev s) = nonspace s.
Proof.
  induction s as [|c t IH]; [reflexivity|]. simpl rev.
  rewrite nonspace_app, IH, !nonspace_cons. simpl.
  rewrite orb_false_r. apply orb_comm.
Qed.

Lemma trim_nonspace s : nonspace s = true -> trim s <> [].
Proof.
  intros H. unfold trim. apply dropwhile_nonspace in H.
  rewrite <- nonspace_rev in H. apply dropwhile_nonspace in H.
  rewrite <- nonspace_rev in H.
  destruct (rev (dropwhile isspace (rev (dropwhile isspace s))));
    [discriminate|discriminate].
Qed.

(** Property X16.  For a line of ASCII text, the key [normalize_error] returns
    is never the empty string, so the loop counts every accepted line that has
    a key. *)
Theorem normalize_error_key_nonempty (l k : str) :
  forallb is_ascii l = true -> normalize_error l = Some k -> k <> [].
Proof.
  intros A. rewrite normalize_error_key.
  destruct (existsb _ trigger_words) eqn:T; [|discriminate].
  intros E. injection E as <-. apply triggered_nonspace in T; [|exact A].
  unfold masked_key. apply trim_nonspace.
  apply (@replace_tokens_nonspace ws_token (py " ") ws_token_split)
    with (n := length (mask_num (mask_hex l))); [|lia|].
  { intros pw s w r E H. exfalso.
    unfold ws_token in E. destruct s as [|c t]; [discriminate|].
    destruct (isspace c) eqn:S; [|discriminate]. injection E as <- <-.
    rewrite spaces_not_nonspace in H; [discriminate|].
    simpl. rewrite S. apply forallb_takewhile. }
  apply (@replace_tokens_nonspace num_token (py "<NUM>") num_token_split)
    with (n := length (mask_hex l)); [reflexivity|lia|].
  apply (@replace_tokens_nonspace hex_token (py "<HEX>") hex_token_split)
    with (n := length l); [reflexivity|lia|exact T].
Qed.

End NonEmptyKey.

(** "error 7". *)
Lemma normalize_error_key_nonempty_witness :
  forallb is_ascii (py "error 7") = true
  /\ normalize_error (U := ascii_only) (py "error 7") = Some (py "error <NUM>")
  /\ py "error <NUM>" <> [].
Proof.
  assert (E : normalize_error (U := ascii_only) (py "error 7")
              = Some (py "error <NUM>")) by (vm_compute; reflexivity).
  split; [reflexivity|]. split; [exact E|].
  apply (@normalize_error_key_nonempty ascii_only (py "error 7") _ eq_refl E).
Defined.

(** * Lines that differ in the amount of white space *)

Lemma dropwhile_all_app (p : char -> bool) a : forall b,
  forallb p a = true -> dropwhile p (a ++ b) = dropwhile p b.
Proof.
  induction a as [|c a IH]; intros b H; [reflexivity|]. simpl in *.
  apply andb_true_iff in H. destruct H as [Hc H]. rewrite Hc. apply IH, H.
Qed.

Lemma dropwhile_app_rest (p : char -> bool) a : forall b,
  dropwhile p a <> [] -> dropwhile p (a ++ b) = dropwhile p a ++ b.
Proof.
  induction a as [|c a IH]; intros b H; [simpl in H; congruence|]. simpl in *.
  destruct (p c); [apply IH; exact H|reflexivity].
Qed.

Lemma dropwhile_length (p : char -> bool) a :
  (length (dropwhile p a) <= length a)%nat.
Proof.
  induction a as [|c a IH]; simpl; [lia|]. destruct (p c); simpl; lia.
Qed.

Section Whitespace.
Context {U : UnicodeDB}.

Lemma num_local_head a b : head_word b = false -> local_at num_token a b.
Proof.
  intros W a1 a2 q _ H.
  assert (Hb : match b with c :: _ => isdigit c = false | [] => True end).
  { destruct b; [exact I|]. apply not_word_not_digit. exact W. }
  destruct a2 as [|d t]; [congruence|].
  change ((d :: t) ++ b) with (d :: (t ++ b)). rewrite !num_token_cons.
  destruct (@span_app_head isdigit t b Hb) as [H1 H2].
  assert (E1 : takewhile isdigit (t ++ b) = takewhile isdigit t) by exact H1.
  assert (E2 : dropwhile isdigit (t ++ b) = dropwhile isdigit t ++ b)
    by exact H2.
  rewrite E1, E2.
  assert (E3 : head_word (dropwhile isdigit t ++ b)
               = head_word (dropwhile isdigit t)).
  { destruct (dropwhile isdigit t); [exact W|reflexivity]. }
  rewrite E3.
  destruct (negb q && isdigit d && negb (head_word (dropwhile isdigit t)));
    reflexivity.
Qed.

Lemma spaces_last ws pw :
  ws <> [] -> forallb isspace ws = true -> word_before pw ws = false.
Proof.
  intros Hw H. destruct ws as [|c ws]; [congruence|].
  change (word_before pw (c :: ws)) with (isword (last (c :: ws) 0)).
  apply space_not_word. rewrite forallb_forall in H. apply H.
  rewrite (@app_removelast_last _ (c :: ws) 0) at 2 by discriminate.
  apply in_or_app. right. left. reflexivity.
Qed.

Lemma spaces_head ws b :
  ws <> [] -> forallb isspace ws = true -> head_word (ws ++ b) = false.
Proof.
  intros Hw H. destruct ws as [|c ws]; [congruence|]. simpl in *.
  apply andb_true_iff in H. apply space_not_word, H.
Qed.

Lemma spaces_hex_free ws : forall pw,
  forallb isspace ws = true -> token_free hex_token pw ws = true.
Proof.
  induction ws as [|c ws IH]; intros pw H; [reflexivity|].
  simpl in H. apply andb_true_iff in H. destruct H as [Hc H].
  apply token_free_intro; [|apply IH; exact H].
  apply hex_token_head. intros ->. discriminate.
Qed.

Lemma spaces_num_free ws : forall pw,
  forallb isspace ws = true -> token_free num_token pw ws = true.
Proof.
  induction ws as [|c ws IH]; intros pw H; [reflexivity|].
  simpl in H. apply andb_true_iff in H. destruct H as [Hc H].
  apply token_free_intro; [|apply IH; exact H].
  apply num_token_nodigit. apply space_not_digit. exact Hc.
Qed.

(** The text behind the two masks for a line with a run of white space
    between two parts: the run is still there, between the masked parts. *)
Lemma mask_around_spaces a ws b :
  ws <> [] -> forallb isspace ws = true ->
  mask_num (mask_hex (a ++ ws ++ b))
  = mask_num (mask_hex a) ++ ws ++ mask_num (mask_hex b).
Proof.
  intros Hw Sw.
  assert (H1 : mask_hex (a ++ ws ++ b) = mask_hex a ++ ws ++ mask_hex b).
  { unfold mask_hex at 1.
    rewrite (@replace_tokens_app _ hex_token (py "<HEX>") hex_token_split
               (length a))
      by (try lia; apply hex_local_head; apply spaces_head; assumption).
    fold (mask_hex a). f_equal.
    rewrite (@replace_tokens_app _ hex_token (py "<HEX>") hex_token_split
               (length ws))
      by (try lia; apply hex_local_end; apply spaces_last; assumption).
    rewrite !mask_hex_any_context. f_equal.
    apply (replace_token_free hex_token (py "<HEX>") hex_token_split).
    apply spaces_hex_free. exact Sw. }
  rewrite H1. unfold mask_num at 1.
  rewrite (@replace_tokens_app _ num_token (py "<NUM>") num_token_split
             (length (mask_hex a)))
    by (try lia; apply num_local_head; apply spaces_head; assumption).
  fold (mask_num (mask_hex a)). f_equal.
  rewrite (@replace_tokens_app _ num_token (py "<NUM>") num_token_split
             (length ws))
    by (try lia; apply num_local_end; apply spaces_last; assumption).
  rewrite (spaces_last _ Hw Sw). f_equal.
  apply (replace_token_free num_token (py "<NUM>") num_token_split).
  apply spaces_num_free. exact Sw.
Qed.

Lemma collapse_any_context pw pw' s :
  replace_tokens ws_token (py " ") pw s = replace_tokens ws_token (py " ") pw' s.
Proof.
  apply (@replace_tokens_blind _ ws_token (py " ") ws_token_split
           (fun _ _ _ => eq_refl) (length s)). lia.
Qed.

Lemma ws_token_cons q c t :
  ws_token q (c :: t)
  = if isspace c
    then Some (c :: takewhile isspace t, dropwhile isspace t)
    else None.
Proof. reflexivity. Qed.

(** Collapsing does not tell one run of white space from another. *)
Lemma collapse_run n : forall X ws1 ws2 Y pw pw',
  (length X <= n)%nat ->
  ws1 <> [] -> forallb isspace ws1 = true ->
  ws2 <> [] -> forallb isspace ws2 = true ->
  replace_tokens ws_token (py " ") pw (X ++ ws1 ++ Y)
  = replace_tokens ws_token (py " ") pw' (X ++ ws2 ++ Y).
Proof.
  induction n as [|n IH]; intros X ws1 ws2 Y pw pw' Hn H1 S1 H2 S2.
  - destruct X; [|simpl in Hn; lia]. simpl app.
    destruct ws1 as [|c1 w1]; [congruence|].
    destruct ws2 as [|c2 w2]; [congruence|].
    simpl in S1, S2. apply andb_true_iff in S1, S2.
    destruct S1 as [C1 S1], S2 as [C2 S2].
    change ((c1 :: w1) ++ Y) with (c1 :: w1 ++ Y).
    change ((c2 :: w2) ++ Y) with (c2 :: w2 ++ Y).
    rewrite !(replace_tokens_cons ws_token (py " ") ws_token_split).
    rewrite !ws_token_cons, C1, C2.
    assert (E1 : dropwhile isspace (w1 ++ Y) = dropwhile isspace Y)
      by (apply dropwhile_all_app; exact S1).
    assert (E2 : dropwhile isspace (w2 ++ Y) = dropwhile isspace Y)
      by (apply dropwhile_all_app; exact S2).
    rewrite E1, E2. f_equal. apply collapse_any_context.
  - destruct X as [|c X].
    + apply (IH [] ws1 ws2 Y pw pw'); [simpl; lia|assumption..].
    + change ((c :: X) ++ ?Z) with (c :: X ++ Z).
      rewrite !(replace_tokens_cons ws_token (py " ") ws_token_split).
      rewrite !ws_token_cons. simpl in Hn. destruct (isspace c).
      * f_equal.
        destruct (dropwhile isspace X) as [|x X'] eqn:D.
        -- assert (A : forall Z, dropwhile isspace (X ++ Z)
                                 = dropwhile isspace Z).
           { intros Z. clear -D. induction X as [|e X IHX]; [reflexivity|].
             simpl in *. destruct (isspace e); [apply IHX; exact D|discriminate]. }
           rewrite !A.
           assert (E1 : dropwhile isspace (ws1 ++ Y) = dropwhile isspace Y)
             by (apply dropwhile_all_app; exact S1).
           assert (E2 : dropwhile isspace (ws2 ++ Y) = dropwhile isspace Y)
             by (apply dropwhile_all_app; exact S2).
           rewrite E1, E2. apply collapse_any_context.
        -- assert (A : forall Z, dropwhile isspace (X ++ Z)
                                 = (x :: X') ++ Z).
           { intros Z. rewrite <- D. apply dropwhile_app_rest.
             rewrite D. discriminate. }
           rewrite !A. apply IH; try assumption.
           pose proof (dropwhile_length isspace X) as L.
           rewrite D in L. lia.
      * f_equal. apply IH; try assumption. lia.
Qed.

(** Property X17.  Two lines that differ only in the length or the characters
    of one run of white space have the same key when both have one. *)
Theorem normalize_error_whitespace (a b ws1 ws2 k1 k2 : str) :
  ws1 <> [] -> forallb isspace ws1 = true ->
  ws2 <> [] -> forallb isspace ws2 = true ->
  normalize_error (a ++ ws1 ++ b) = Some k1 ->
  normalize_error (a ++ ws2 ++ b) = Some k2 ->
  k1 = k2.
Proof.
  intros H1 S1 H2 S2. rewrite !normalize_error_key.
  destruct (existsb _ trigger_words); [|discriminate].
  destruct (existsb _ trigger_words); [|discriminate].
  intros E1 E2. injection E1 as <-. injection E2 as <-.
  unfold masked_key. rewrite !mask_around_spaces by assumption.
  f_equal. unfold collapse_ws.
  apply (@collapse_run (length (mask_num (mask_hex a)))); try assumption. lia.
Qed.

End Whitespace.

(** "error  in	disk" with two spaces and a tab, and with single spaces. *)
Lemma normalize_error_whitespace_witness :
  normalize_error (U := ascii_only) (py "error" ++ [32; 32; 9] ++ py "in disk")
  = Some (py "error in disk")
  /\ normalize_error (U := ascii_only) (py "error" ++ [32] ++ py "in disk")
     = Some (py "error in disk")
  /\ py "error in disk" = py "error in disk".
Proof.
  assert (E1 : normalize_error (U := ascii_only)
                 (py "error" ++ [32; 32; 9] ++ py "in disk")
               = Some (py "error in disk")) by (vm_compute; reflexivity).
  assert (E2 : normalize_error (U := ascii_only)
                 (py "error" ++ [32] ++ py "in disk")
               = Some (py "error in disk")) by (vm_compute; reflexivity).
  split; [exact E1|]. split; [exact E2|].
  apply (@normalize_error_whitespace ascii_only (py "error") (py "in disk")
           [32; 32; 9] [32] _ _); try reflexivity; try discriminate;
    assumption.
Defined.

(** * A number does not decide whether a line of ASCII text has a key *)

Lemma occurs_in_context w x pre suf :
  occurs_in w x -> occurs_in w (pre ++ x ++ suf).
Proof.
  intros (p & s & ->). exists (pre ++ p), (s ++ suf).
  rewrite <- !app_assoc. reflexivity.
Qed.

(** A word that shares no character with [D] occurs in [X ++ D ++ Y] only
    inside [X] or inside [Y]. *)
Lemma occurs_avoid (w X D Y : str) :
  w <> [] -> D <> [] -> (forall c, In c w -> In c D -> False) ->
  occurs_in w (X ++ D ++ Y) -> occurs_in w X \/ occurs_in w Y.
Proof.
  intros Hw Hd Hx (p & s & E).
  apply app_eq_app in E. destruct E as (l & [[E1 E2]|[E1 E2]]).
  - apply app_eq_app in E2. destruct E2 as (l' & [[E3 E4]|[E3 E4]]).
    + destruct l' as [|e l'].
      * left. exists p, []. rewrite app_nil_r in E3. subst.
        rewrite app_nil_r. reflexivity.
      * exfalso. destruct D as [|d0 D]; [congruence|].
        simpl in E4. injection E4 as -> _.
        apply (Hx e); [|left; reflexivity].
        rewrite E3. apply in_or_app. right. left. reflexivity.
    + left. exists p, l'. subst. reflexivity.
  - apply app_eq_app in E2. destruct E2 as (l' & [[E3 E4]|[E3 E4]]).
    + destruct l' as [|e l'].
      * right. exists [], s. simpl in E4. subst. reflexivity.
      * exfalso. destruct w as [|w0 w]; [congruence|].
        simpl in E4. injection E4 as -> _.
        apply (Hx e); [left; reflexivity|].
        rewrite E3. apply in_or_app. right. left. reflexivity.
    + right. exists l', s. exact E4.
Qed.

Section NumbersAscii.
Context {U : UnicodeDB}.

Lemma lower_ascii s : forallb is_ascii s = true -> lower s = map ascii_lower s.
Proof. apply lower_from_ascii. Qed.

Lemma trigger_word_letters w c :
  In w trigger_words -> In c w -> in_range 97 122 c = true.
Proof.
  intros Hw Hc. simpl in Hw.
  destruct Hw as [<-|[<-|[<-|[<-|[]]]]]; simpl in Hc;
    repeat (destruct Hc as [<-|Hc]; [reflexivity|]); contradiction.
Qed.

Lemma ascii_digit_lower c :
  is_ascii c = true -> isdigit c = true ->
  in_range 97 122 (ascii_lower c) = false.
Proof.
  intros A D. unfold isdigit in D. rewrite A in D.
  unfold ascii_lower, in_range in *.
  destruct (N.leb_spec 48 c), (N.leb_spec c 57); try discriminate.
  destruct (N.leb_spec 65 c), (N.leb_spec c 90); simpl;
    cmp_cases; simpl; try reflexivity; exfalso; lia.
Qed.

Lemma triggered_number pre d1 d2 suf :
  forallb is_ascii pre = true -> forallb is_ascii suf = true ->
  d1 <> [] -> forallb is_ascii d1 = true -> forallb isdigit d1 = true ->
  forallb is_ascii d2 = true ->
  existsb (fun word => str_in word (lower (pre ++ d1 ++ suf))) trigger_words
  = true ->
  existsb (fun word => str_in word (lower (pre ++ d2 ++ suf))) trigger_words
  = true.
Proof.
  intros Ap As H1 A1 D1 A2 T.
  apply existsb_exists in T. destruct T as (w & Hw & T).
  apply existsb_exists. exists w. split; [exact Hw|].
  apply str_in_spec. apply str_in_spec in T.
  rewrite lower_ascii in T by (rewrite !forallb_app, Ap, A1, As; reflexivity).
  rewrite lower_ascii by (rewrite !forallb_app, Ap, A2, As; reflexivity).
  rewrite !map_app in *.
  apply occurs_avoid in T.
  - destruct T as [(p & s & E)|(p & s & E)].
    + exists p, (s ++ map ascii_lower d2 ++ map ascii_lower suf).
      rewrite E, <- !app_assoc. reflexivity.
    + exists (map ascii_lower pre ++ map ascii_lower d2 ++ p), s.
      rewrite E, <- !app_assoc. reflexivity.
  - simpl in Hw. destruct Hw as [<-|[<-|[<-|[<-|[]]]]]; discriminate.
  - destruct d1; [congruence|discriminate].
  - intros c Hc Hd. apply (@trigger_word_letters w c Hw) in Hc.
    apply in_map_iff in Hd. destruct Hd as (x & <- & Hx).
    rewrite forallb_forall in A1, D1.
    rewrite (@ascii_digit_lower x (A1 x Hx) (D1 x Hx)) in Hc. discriminate.
Qed.

(** Property X18.  Two lines of ASCII text that differ only in a number,
    standing between characters that are not word characters, are normalized
    alike: both have no key, or both have the same key. *)
Theorem normalize_error_numbers_ascii (pre suf d1 d2 : str) :
  forallb is_ascii pre = true -> forallb is_ascii suf = true ->
  word_before false pre = false -> head_word suf = false ->
  d1 <> [] -> forallb is_ascii d1 = true -> forallb isdigit d1 = true ->
  d2 <> [] -> forallb is_ascii d2 = true -> forallb isdigit d2 = true ->
  normalize_error (pre ++ d1 ++ suf) = normalize_error (pre ++ d2 ++ suf).
Proof.
  intros Ap As Wp Ws H1 A1 D1 H2 A2 D2. rewrite !normalize_error_key.
  destruct (existsb (fun word => str_in word (lower (pre ++ d1 ++ suf)))
              trigger_words) eqn:T1;
    destruct (existsb (fun word => str_in word (lower (pre ++ d2 ++ suf)))
                trigger_words) eqn:T2; try reflexivity.
  - unfold masked_key. rewrite !mask_number by assumption. reflexivity.
  - rewrite (@triggered_number pre d1 d2 suf Ap As H1 A1 D1 A2 T1) in T2.
    discriminate.
  - rewrite (@triggered_number pre d2 d1 suf Ap As H2 A2 D2 A1 T2) in T1.
    discriminate.
Qed.

End NumbersAscii.

(** "INFO retry 3 of 5" and "INFO retry 4 of 5" have no key;
    "disk failed 404" and "disk failed 500" have the same. *)
Lemma normalize_error_numbers_ascii_witness :
  normalize_error (U := ascii_only) (py "disk failed " ++ py "404" ++ [])
  = normalize_error (U := ascii_only) (py "disk failed " ++ py "500" ++ [])
  /\ normalize_error (U := ascii_only) (py "INFO retry " ++ py "3" ++ py " of 5")
     = normalize_error (U := ascii_only) (py "INFO retry " ++ py "4" ++ py " of 5").
Proof.
  split.
  - apply (@normalize_error_numbers_ascii ascii_only (py "disk failed ") []
             (py "404") (py "500")); try reflexivity; discriminate.
  - apply (@normalize_error_numbers_ascii ascii_only (py "INFO retry ")
             (py " of 5") (py "3") (py "4")); try reflexivity; discriminate.
Defined.

(** * The filter and the case of letters *)


Section FilterCase.
Context {U : UnicodeDB}.




End FilterCase.


